(** * Lights Out solver over GF(2): a model of [main.py] and its properties

    The development follows [src/main.py]:
    - [solve_lights_out] builds the toggle matrix [A] and the target vector
      [b] of a board and calls the solver;
    - [gaussian_elimination_gf2] runs forward elimination on the augmented
      matrix and then back-substitution;
    - [verify_solution] replays a grid of presses against a board.

    Cells and matrix entries are Python / NumPy integers, modelled as [Z];
    the source reduces with [% 2], written here [`mod` 2].  NumPy's [int64]
    arithmetic wraps around modulo [2^64]; a wrapped sum or product has the
    parity of the exact one and NumPy's [%] takes the sign of the divisor, so
    [(a + b) % 2] on [int64] is [(a + b) `mod` 2] on [Z].  Indices are the
    values of [range] loops, modelled as [nat]. *)

From Stdlib Require Import ZArith List Lia Bool.
From stdpp Require Import base option list gmap.

Local Open Scope Z_scope.
Local Open Scope nat_scope.

(** ** Data *)

(** What a call can do other than return: the Python exceptions that the
    modelled statements can raise. *)
Inductive exn : Type :=
  | IndexError
  | ValueError
  | OverflowError
  | TypeError.

Inductive outcome (T : Type) : Type :=
  | Raises (e : exn)
  | Returns (v : T).

Arguments Raises {T} e.
Arguments Returns {T} v.

(** [v[i]] and [M[r][c]].  The reads below are all guarded by the loop
    bounds of the source; where a read can be out of range in Python (the
    reads of [board]) the model makes the [IndexError] explicit instead. *)
Definition get (v : list Z) (i : nat) : Z := default 0%Z (v !! i).

Definition row_of (M : list (list Z)) (r : nat) : list Z := default [] (M !! r).

Definition entry (M : list (list Z)) (r c : nat) : Z := get (row_of M r) c.

(** [np.zeros(m, dtype=int)] and [np.zeros((n, m), dtype=int)]. *)
Definition zeros (m : nat) : list Z := replicate m 0%Z.

Definition zeros2 (n m : nat) : list (list Z) := replicate n (zeros m).

(** ** Matrix construction ([solve_lights_out], lines 19-41) *)

(** [A[light_idx][button_idx] = 1] *)
Definition set_entry (A : list (list Z)) (light_idx button_idx : nat)
  : list (list Z) :=
  alter (fun r => <[button_idx := 1%Z]> r) light_idx A.

(** Body of the inner loop for the button at [(i, j)].  The loop runs with
    [i < rows] and [j < cols], so [rows - 1] and [cols - 1] are the same
    numbers in [nat] as in Python, and every index written is in range. *)
Definition press_column (rows cols i j : nat) (A : list (list Z))
  : list (list Z) :=
  let button_idx := i * cols + j in
  let A := set_entry A (i * cols + j) button_idx in
  let A := if 0 <? i then set_entry A ((i - 1) * cols + j) button_idx else A in
  let A := if i <? rows - 1 then set_entry A ((i + 1) * cols + j) button_idx else A in
  let A := if 0 <? j then set_entry A (i * cols + (j - 1)) button_idx else A in
  let A := if j <? cols - 1 then set_entry A (i * cols + (j + 1)) button_idx else A in
  A.

Definition build_matrix (rows cols : nat) : list (list Z) :=
  let n := rows * cols in
  fold_left
    (fun A i => fold_left (fun A j => press_column rows cols i j A) (seq 0 cols) A)
    (seq 0 rows) (zeros2 n n).

(** ** The GF(2) solver ([gaussian_elimination_gf2], lines 63-107) *)

(** [np.column_stack([A.copy(), b.copy()])] for [len(A) = len(b)]. *)
Definition column_stack (A : list (list Z)) (b : list Z) : list (list Z) :=
  zip_with (fun r v => r ++ [v]) A b.

(** The pivot search of lines 73-77: the first [row] of the range with
    [aug[row][col] == 1]. *)
Fixpoint find_pivot (aug : list (list Z)) (col : nat) (range : list nat)
  : option nat :=
  match range with
  | [] => None
  | row :: range' =>
      if (entry aug row col =? 1)%Z then Some row
      else find_pivot aug col range'
  end.

(** [aug[[pivot_row, row]] = aug[[row, pivot_row]]]: the right-hand side is
    a copy, then the two rows are assigned in order. *)
Definition swap_rows (aug : list (list Z)) (pivot_row row : nat)
  : list (list Z) :=
  <[row := row_of aug pivot_row]> (<[pivot_row := row_of aug row]> aug).

(** [(aug[row] + aug[pivot_row]) % 2], element by element. *)
Definition add_rows (r p : list Z) : list Z :=
  zip_with (fun a c => ((a + c) `mod` 2)%Z) r p.

(** One iteration of the loop of lines 82-84. *)
Definition eliminate_row (pivot_row col : nat) (aug : list (list Z)) (row : nat)
  : list (list Z) :=
  if negb (row =? pivot_row) && (entry aug row col =? 1)%Z
  then <[row := add_rows (row_of aug row) (row_of aug pivot_row)]> aug
  else aug.

Definition eliminate (n pivot_row col : nat) (aug : list (list Z))
  : list (list Z) :=
  fold_left (eliminate_row pivot_row col) (seq 0 n) aug.

(** One iteration of the loop over [col] (lines 71-86); the state is
    [(aug, pivot_row)]. *)
Definition elimination_step (n : nat) (st : list (list Z) * nat) (col : nat)
  : list (list Z) * nat :=
  let '(aug, pivot_row) := st in
  match find_pivot aug col (seq pivot_row (n - pivot_row)) with
  | None => (aug, pivot_row)
  | Some row =>
      let aug := swap_rows aug pivot_row row in
      let aug := eliminate n pivot_row col aug in
      (aug, pivot_row + 1)
  end.

Definition forward_elimination (n m : nat) (aug : list (list Z))
  : list (list Z) * nat :=
  fold_left (elimination_step n) (seq 0 m) (aug, 0).

(** Lines 91-95: the first [col] with [aug[row][col] == 1]; [None] stands
    for the sentinel [-1]. *)
Definition leading_column (m : nat) (r : list Z) : option nat :=
  find (fun col => (get r col =? 1)%Z) (seq 0 m).

(** Lines 102-104. *)
Definition row_value (m : nat) (r x : list Z) (leading_col : nat) : Z :=
  fold_left (fun val col => ((val + get r col * get x col) `mod` 2)%Z)
            (seq (leading_col + 1) (m - (leading_col + 1))) (get r m).

(** One iteration of the back-substitution loop (lines 90-105).  The
    accumulator is [None] once [return None] has been executed. *)
Definition substitution_step (m : nat) (aug : list (list Z))
  (acc : option (list Z)) (row : nat) : option (list Z) :=
  match acc with
  | None => None
  | Some x =>
      let r := row_of aug row in
      match leading_column m r with
      | None => if (get r m =? 1)%Z then None else Some x
      | Some leading_col => Some (<[leading_col := row_value m r x leading_col]> x)
      end
  end.

(** [range(min(pivot_row, n) - 1, -1, -1)] *)
Definition substitution_range (n pivot_row : nat) : list nat :=
  rev (seq 0 (min pivot_row n)).

Definition back_substitution (n m : nat) (aug : list (list Z)) (pivot_row : nat)
  : option (list Z) :=
  fold_left (substitution_step m aug) (substitution_range n pivot_row)
            (Some (zeros m)).

(** The whole function.  [len(A[0])] raises [IndexError] on a matrix with
    no row, and [np.column_stack] raises [ValueError] when [A] and [b]
    disagree on the number of rows.  The result [None] is Python's [None]. *)
Definition gaussian_elimination_gf2 (A : list (list Z)) (b : list Z)
  : outcome (option (list Z)) :=
  let n := length b in
  match A with
  | [] => Raises IndexError
  | row0 :: _ =>
      let m := length row0 in
      if length A =? n then
        let aug := column_stack A b in
        let '(aug, pivot_row) := forward_elimination n m aug in
        Returns (back_substitution n m aug pivot_row)
      else Raises ValueError
  end.

(** ** [solve_lights_out] (lines 3-60) *)

(** The index pairs of [for i in range(rows) for j in range(cols)]. *)
Definition cells (rows cols : nat) : list (nat * nat) :=
  flat_map (fun i => map (fun j => (i, j)) (seq 0 cols)) (seq 0 rows).

(** [[board[i][j] for i in range(rows) for j in range(cols)]]; [None] when
    a read is out of range. *)
Definition flatten_board (board : list (list Z)) (rows cols : nat)
  : option (list Z) :=
  mapM (fun ij : nat * nat => board !! ij.1 ≫= fun r => r !! ij.2)
       (cells rows cols).

(** [np.array(..., dtype=int)] accepts the values of a C [long]. *)
Definition fits_int64 (z : Z) : bool :=
  ((- 2 ^ 63 <=? z) && (z <? 2 ^ 63))%Z.

(** Lines 53-58. *)
Definition to_grid (rows cols : nat) (solution_vector : list Z)
  : list (list Z) :=
  map (fun i => map (fun j => get solution_vector (i * cols + j)) (seq 0 cols))
      (seq 0 rows).

Definition solve_lights_out (board : list (list Z))
  : outcome (option (list (list Z))) :=
  let rows := length board in
  match board with
  | [] => Raises IndexError
  | row0 :: _ =>
      let cols := length row0 in
      let A := build_matrix rows cols in
      match flatten_board board rows cols with
      | None => Raises IndexError
      | Some b =>
          if forallb fits_int64 b then
            match gaussian_elimination_gf2 A b with
            | Raises e => Raises e
            | Returns None => Returns None
            | Returns (Some solution_vector) =>
                Returns (Some (to_grid rows cols solution_vector))
            end
          else Raises OverflowError
      end
  end.

(** ** [verify_solution] (lines 110-137) *)

(** [result[i][j] = 1 - result[i][j]] *)
Definition toggle (result : list (list Z)) (i j : nat) : list (list Z) :=
  alter (fun r => <[j := (1 - get r j)%Z]> r) i result.

(** Body of the inner loop at [(i, j)]. *)
Definition apply_press (rows cols : nat) (solution : list (list Z))
  (result : list (list Z)) (ij : nat * nat) : list (list Z) :=
  let '(i, j) := ij in
  if (entry solution i j =? 1)%Z then
    let result := toggle result i j in
    let result := if 0 <? i then toggle result (i - 1) j else result in
    let result := if i <? rows - 1 then toggle result (i + 1) j else result in
    let result := if 0 <? j then toggle result i (j - 1) else result in
    let result := if j <? cols - 1 then toggle result i (j + 1) else result in
    result
  else result.

Definition replay (board solution : list (list Z)) : list (list Z) :=
  let rows := length board in
  let cols := length (row_of board 0) in
  fold_left (apply_press rows cols solution) (cells rows cols) board.

Definition verify_solution (board solution : list (list Z))
  : bool * list (list Z) :=
  let rows := length board in
  let cols := length (row_of board 0) in
  let result := replay board solution in
  let all_off :=
    forallb (fun ij : nat * nat => (entry result ij.1 ij.2 =? 0)%Z)
            (cells rows cols) in
  (all_off, result).

(** ** The calls in a store of objects

    Python passes [board] by reference and every list or array is an object
    of the store.  The functions above compute with the contents; the
    versions below say which objects a call allocates and which it writes.
    The writes of one loop to one array are performed as a single update of
    that object. *)

Inductive value : Type :=
  | VInt (z : Z)
  | VRef (l : positive).

Inductive object : Type :=
  | PyList (items : list value)
  | Array1 (data : list Z)
  | Array2 (data : list (list Z)).

(** A computation on the store that returns or raises. *)
Definition St (T : Type) : Type :=
  gmap positive object -> outcome T * gmap positive object.

Definition ret {T : Type} (v : T) : St T := fun h => (Returns v, h).

Definition raise {T : Type} (e : exn) : St T := fun h => (Raises e, h).

Definition bind {T U : Type} (c : St T) (k : T -> St U) : St U :=
  fun h =>
    match c h with
    | (Raises e, h') => (Raises e, h')
    | (Returns v, h') => k v h'
    end.

Notation "'do' x <- c ;; k" := (bind c (fun x => k))
  (at level 10, x name, c at level 99, k at level 200).

(** A new object at an address that the store does not use. *)
Definition alloc (o : object) : St positive :=
  fun h => let l := fresh (dom h) in (Returns l, <[l := o]> h).

Definition store (l : positive) (o : object) : St unit :=
  fun h => (Returns tt, <[l := o]> h).

Definition load (l : positive) : St object :=
  fun h =>
    match h !! l with
    | Some o => (Returns o, h)
    | None => (Raises TypeError, h)
    end.

(** [lst.append(v)] *)
Definition append (l : positive) (v : value) : St unit :=
  fun h =>
    match h !! l with
    | Some (PyList items) => (Returns tt, <[l := PyList (items ++ [v])]> h)
    | _ => (Raises TypeError, h)
    end.

Fixpoint for_each {A : Type} (l : list A) (body : A -> St unit) : St unit :=
  match l with
  | [] => ret tt
  | a :: l' => do _ <- body a ;; for_each l' body
  end.

(** The nested list of integers that a reference denotes. *)
Definition read_ints (items : list value) : option (list Z) :=
  mapM (fun v => match v with VInt z => Some z | VRef _ => None end) items.

Definition read_row (h : gmap positive object) (v : value) : option (list Z) :=
  match v with
  | VRef l =>
      match h !! l with
      | Some (PyList items) => read_ints items
      | _ => None
      end
  | VInt _ => None
  end.

Definition read_grid (h : gmap positive object) (l : positive)
  : option (list (list Z)) :=
  match h !! l with
  | Some (PyList items) => mapM (read_row h) items
  | _ => None
  end.

(** Reading the argument [board]; a reference that does not denote a list
    of lists of integers is a type error. *)
Definition load_grid (l : positive) : St (list (list Z)) :=
  fun h =>
    match read_grid h l with
    | Some g => (Returns g, h)
    | None => (Raises TypeError, h)
    end.

(** [gaussian_elimination_gf2(A, b)] on references: [aug] and [x] are new
    arrays, [A] and [b] are only read ([A.copy()], [b.copy()]).  The row
    operations all write to [aug], the assignments of the back-substitution
    to [x]; when the function returns [None] the contents of [x] are left
    out, nothing can refer to that array any more. *)
Definition gaussian_elimination_gf2_st (A_ref b_ref : positive)
  : St (option positive) :=
  do oA <- load A_ref ;;
  do ob <- load b_ref ;;
  match oA, ob with
  | Array2 A, Array1 b =>
      let n := length b in
      match A with
      | [] => raise IndexError
      | row0 :: _ =>
          let m := length row0 in
          if length A =? n then
            do aug_ref <- alloc (Array2 (column_stack A b)) ;;
            let '(aug, pivot_row) := forward_elimination n m (column_stack A b) in
            do _ <- store aug_ref (Array2 aug) ;;
            do x_ref <- alloc (Array1 (zeros m)) ;;
            match back_substitution n m aug pivot_row with
            | None => ret None
            | Some x => do _ <- store x_ref (Array1 x) ;; ret (Some x_ref)
            end
          else raise ValueError
      end
  | _, _ => raise TypeError
  end.

(** Lines 54-58 for one row of the solution: a new list [row], filled, and
    appended to [solution]. *)
Definition append_row (solution_ref : positive) (row : list Z) : St unit :=
  do row_ref <- alloc (PyList []) ;;
  do _ <- store row_ref (PyList (VInt <$> row)) ;;
  append solution_ref (VRef row_ref).

(** [solve_lights_out(board)] on a reference: [A], [b], [solution] and its
    rows are new objects; [board] is only read. *)
Definition solve_lights_out_st (board_ref : positive) : St (option positive) :=
  do board <- load_grid board_ref ;;
  let rows := length board in
  match board with
  | [] => raise IndexError
  | row0 :: _ =>
      let cols := length row0 in
      let n := rows * cols in
      do A_ref <- alloc (Array2 (zeros2 n n)) ;;
      do _ <- store A_ref (Array2 (build_matrix rows cols)) ;;
      match flatten_board board rows cols with
      | None => raise IndexError
      | Some cells =>
          if forallb fits_int64 cells then
            do b_ref <- alloc (Array1 cells) ;;
            do r <- gaussian_elimination_gf2_st A_ref b_ref ;;
            match r with
            | None => ret None
            | Some x_ref =>
                do ox <- load x_ref ;;
                match ox with
                | Array1 solution_vector =>
                    do solution_ref <- alloc (PyList []) ;;
                    do _ <- for_each (to_grid rows cols solution_vector)
                                     (append_row solution_ref) ;;
                    ret (Some solution_ref)
                | _ => raise TypeError
                end
            end
          else raise OverflowError
      end
  end.

(** What the caller sees of a call: the exception, [None], or the grid that
    the returned reference denotes. *)
Definition observe (r : outcome (option positive) * gmap positive object)
  : option (outcome (option (list (list Z)))) :=
  match r.1 with
  | Raises e => Some (Raises e)
  | Returns None => Some (Returns None)
  | Returns (Some l) => g ← read_grid r.2 l; Some (Returns (Some g))
  end.

(** ** Predicates used in the statements *)

Definition is_bit (z : Z) : Prop := z = 0%Z \/ z = 1%Z.

(** An [n] by [w] NumPy array: [n] rows, all of length [w]. *)
Definition shape (n w : nat) (M : list (list Z)) : Prop :=
  length M = n /\ Forall (fun r => length r = w) M.

(** The in-bounds 4-neighbours of the cell [(i, j)]: up, down, left, right,
    each only if it is on the grid. *)
Definition neighbours (rows cols i j : nat) : list (nat * nat) :=
  (if 0 <? i then [(i - 1, j)] else [])
  ++ (if i + 1 <? rows then [(i + 1, j)] else [])
  ++ (if 0 <? j then [(i, j - 1)] else [])
  ++ (if j + 1 <? cols then [(i, j + 1)] else []).

(** The button at [(i', j')] toggles the light at [(i, j)]: it is that cell
    or one of its in-bounds neighbours. *)
Definition toggled_by (rows cols i j i' j' : nat) : bool :=
  bool_decide ((i', j') = (i, j) \/ (i', j') ∈ neighbours rows cols i j).

(** The entries that the loop body for the button [(a, c)] sets to 1. *)
Definition written (rows cols a c l k : nat) : bool :=
  (k =? a * cols + c)
  && ((l =? a * cols + c)
      || ((0 <? a) && (l =? (a - 1) * cols + c))
      || ((a <? rows - 1) && (l =? (a + 1) * cols + c))
      || ((0 <? c) && (l =? a * cols + (c - 1)))
      || ((c <? cols - 1) && (l =? a * cols + (c + 1)))).

(** What the elimination loop of lines 82-84 leaves at [aug[i][c]]. *)
Definition eliminated (pivot_row col : nat) (aug : list (list Z)) (i c : nat) : Z :=
  if negb (i =? pivot_row) && (entry aug i col =? 1)%Z
  then ((entry aug i c + entry aug pivot_row c) `mod` 2)%Z
  else entry aug i c.

(** The state [(aug, pivot_row)] at the start of iteration [col] of the
    forward elimination of [aug0]. *)
Definition elimination_state (n : nat) (aug0 : list (list Z)) (col : nat)
  : list (list Z) * nat :=
  fold_left (elimination_step n) (seq 0 col) (aug0, 0).

(** The value of [found_pivot] after the pivot search of iteration [col]. *)
Definition found_pivot (n : nat) (aug0 : list (list Z)) (col : nat) : bool :=
  let '(aug, pivot_row) := elimination_state n aug0 col in
  match find_pivot aug col (seq pivot_row (n - pivot_row)) with
  | Some _ => true
  | None => false
  end.

(** The columns below [m] that became a pivot, in increasing order. *)
Definition pivot_columns (n m : nat) (aug0 : list (list Z)) : list nat :=
  filter (fun col => found_pivot n aug0 col = true) (seq 0 m).

(** The loop invariant of the forward elimination at the start of iteration
    [col]: [aug] is an [n] by [m + 1] array whose coefficient entries are
    bits, [pcs] lists the pivot column of each of the first [pivot_row]
    rows, each pivot column is a unit vector, each pivot row starts with
    zeros up to its pivot, and the rows from [pivot_row] on are zero in the
    columns already visited. *)
Record reduced (n m col : nat) (aug : list (list Z)) (pivot_row : nat)
  (pcs : list nat) : Prop := {
  red_shape : shape n (m + 1) aug;
  red_bits : forall i c, c < m -> is_bit (entry aug i c);
  red_count : length pcs = pivot_row;
  red_rows : pivot_row <= n;
  red_before : forall k c, pcs !! k = Some c -> c < col;
  red_unit : forall k c i, pcs !! k = Some c ->
             entry aug i c = if decide (i = k) then 1%Z else 0%Z;
  red_leading : forall k c c', pcs !! k = Some c -> c' < c -> entry aug k c' = 0%Z;
  red_below : forall i c, pivot_row <= i -> c < col -> entry aug i c = 0%Z
}.

(** The row of [aug] that the swap of [pivot_row] and [row] puts at index [i]. *)
Definition swapped (pivot_row row i : nat) : nat :=
  if decide (i = row) then pivot_row else if decide (i = pivot_row) then row else i.

(** Bits, decided. *)
Definition bit (z : Z) : bool := ((z =? 0) || (z =? 1))%Z.

Definition bits (v : list Z) : bool := forallb bit v.

Definition bit_matrix (M : list (list Z)) : bool := forallb bits M.

(** The grid with one row that presses exactly the buttons marked [true]. *)
Definition presses (ps : list bool) : list (list Z) :=
  [map (fun p : bool => if p then 1%Z else 0%Z) ps].

(** A malformed board: no row, an empty first row, rows of unequal length,
    or a cell outside {0, 1}. *)
Definition malformed (board : list (list Z)) : bool :=
  match board with
  | [] => true
  | row0 :: _ =>
      (length row0 =? 0)
      || negb (forallb (fun r => length r =? length row0) board)
      || negb (bit_matrix board)
  end.

(** The boards on which a read of the source is out of range: no row, an
    empty first row, or a row shorter than the first one. *)
Definition index_defect (board : list (list Z)) : bool :=
  match board with
  | [] => true
  | row0 :: _ =>
      (length row0 =? 0) || existsb (fun r => length r <? length row0) board
  end.

(** ** Linear systems over GF(2) *)

(** The sum of [f c] over the indices [c] of a list. *)
Definition sumZ (f : nat -> Z) (l : list nat) : Z :=
  foldr (fun c acc => (f c + acc)%Z) 0%Z l.

(** The left-hand side of an equation: the coefficients [r[0], ..., r[m-1]]
    against the vector [x]. *)
Definition dot (m : nat) (r x : list Z) : Z :=
  sumZ (fun c => (get r c * get x c)%Z) (seq 0 m).

(** [x] satisfies the equation that the row [r = [coefficients | target]]
    of an augmented matrix stands for, in arithmetic modulo 2. *)
Definition satisfies (m : nat) (r x : list Z) : Prop :=
  (dot m r x `mod` 2 = get r m `mod` 2)%Z.

Definition solves (m : nat) (aug : list (list Z)) (x : list Z) : Prop :=
  forall i, satisfies m (row_of aug i) x.

(** [x] solves [A x = b] over GF(2). *)
Definition solves_system (m : nat) (A : list (list Z)) (b x : list Z) : Prop :=
  forall i, i < length b -> (dot m (row_of A i) x `mod` 2 = get b i `mod` 2)%Z.

(** The number of elements that satisfy [p] is odd. *)
Fixpoint odd_count {T : Type} (p : T -> bool) (l : list T) : bool :=
  match l with
  | [] => false
  | a :: l' => xorb (p a) (odd_count p l')
  end.

(** The two sides of the equation of the row [r] differ modulo 2. *)
Definition defect (m : nat) (r x : list Z) : bool :=
  xorb (odd_count (fun c => Z.odd (get r c) && Z.odd (get x c)) (seq 0 m))
       (Z.odd (get r m)).

(** ** Replaying presses *)

(** [v] after one toggle when [t] holds: [result = 1 - result]. *)
Definition flip_if (t : bool) (v : Z) : Z := if t then (1 - v)%Z else v.

(** The cells that a press of the button [(a, c)] toggles. *)
Definition targets (rows cols a c : nat) : list (nat * nat) :=
  (a, c) :: neighbours rows cols a c.

(** The button at [(a, c)] is pressed in [solution] and is the cell
    [(i, j)] or one of its in-bounds neighbours. *)
Definition pressed_near (rows cols : nat) (solution : list (list Z)) (i j : nat)
  (ac : nat * nat) : bool :=
  (entry solution ac.1 ac.2 =? 1)%Z && toggled_by rows cols i j ac.1 ac.2.

(** The vector of presses of a grid: entry [i * cols + j] is 1 when
    [solution[i][j] == 1] and 0 otherwise. *)
Definition press_vector (rows cols : nat) (solution : list (list Z)) : list Z :=
  map (fun ac : nat * nat => if (entry solution ac.1 ac.2 =? 1)%Z then 1%Z else 0%Z)
      (cells rows cols).

(** ** Enumerating boards of bits *)

(** All rows of [cols] bits, and all boards of [rows] such rows. *)
Fixpoint bit_rows (cols : nat) : list (list Z) :=
  match cols with
  | 0 => [[]]
  | S cols' => r ← bit_rows cols'; [0%Z :: r; 1%Z :: r]
  end.

Fixpoint bit_boards (rows cols : nat) : list (list (list Z)) :=
  match rows with
  | 0 => [[]]
  | S rows' => B ← bit_boards rows' cols; r ← bit_rows cols; [r :: B]
  end.

(** [solve_lights_out] returns a grid that [verify_solution] accepts, with
    an all-zero result. *)
Definition solved (board : list (list Z)) : bool :=
  match solve_lights_out board with
  | Returns (Some solution) =>
      bool_decide (verify_solution board solution
                   = (true, zeros2 (length board) (length (row_of board 0))))
  | _ => false
  end.

(** ** [verify_solution] in the store

    [verify_solution] works on a copy of the board, [result], and assigns
    to its cells.  The version below runs statement by statement on the
    store: [board] and [solution] are references to lists of row lists, the
    copy allocates one new list per row and one for [result], and each
    [result[i][j] = 1 - result[i][j]] is a read and a write through the
    references.  The arguments are lists of lists of integers, as
    [read_grid] reads them; where a list is expected and the store has an
    object of another kind the version below stops with [TypeError], as
    [load_grid] does, and the properties are stated for arguments that are
    lists. *)

(** [lst[i][j]] *)
Definition read_cell (l : positive) (i j : nat) : St Z :=
  fun h =>
    match h !! l with
    | Some (PyList items) =>
        match items !! i with
        | Some (VRef r) =>
            match h !! r with
            | Some (PyList ritems) =>
                match ritems !! j with
                | Some (VInt z) => (Returns z, h)
                | Some (VRef _) => (Raises TypeError, h)
                | None => (Raises IndexError, h)
                end
            | _ => (Raises TypeError, h)
            end
        | Some (VInt _) => (Raises TypeError, h)
        | None => (Raises IndexError, h)
        end
    | _ => (Raises TypeError, h)
    end.

(** [lst[i][j] = z] *)
Definition write_cell (l : positive) (i j : nat) (z : Z) : St unit :=
  fun h =>
    match h !! l with
    | Some (PyList items) =>
        match items !! i with
        | Some (VRef r) =>
            match h !! r with
            | Some (PyList ritems) =>
                if j <? length ritems
                then (Returns tt, <[r := PyList (<[j := VInt z]> ritems)]> h)
                else (Raises IndexError, h)
            | _ => (Raises TypeError, h)
            end
        | Some (VInt _) => (Raises TypeError, h)
        | None => (Raises IndexError, h)
        end
    | _ => (Raises TypeError, h)
    end.

(** [result[i][j] = 1 - result[i][j]] *)
Definition toggle_st (result_ref : positive) (i j : nat) : St unit :=
  do v <- read_cell result_ref i j ;;
  write_cell result_ref i j (1 - v)%Z.

(** Body of the inner loop of lines 119-132 at [(i, j)]. *)
Definition press_st (rows cols : nat) (solution_ref result_ref : positive)
  (ij : nat * nat) : St unit :=
  let '(i, j) := ij in
  do s <- read_cell solution_ref i j ;;
  if (s =? 1)%Z then
    do _ <- toggle_st result_ref i j ;;
    do _ <- (if 0 <? i then toggle_st result_ref (i - 1) j else ret tt) ;;
    do _ <- (if i <? rows - 1 then toggle_st result_ref (i + 1) j else ret tt) ;;
    do _ <- (if 0 <? j then toggle_st result_ref i (j - 1) else ret tt) ;;
    (if j <? cols - 1 then toggle_st result_ref i (j + 1) else ret tt)
  else ret tt.

(** [len(lst)] *)
Definition len_st (l : positive) : St nat :=
  do o <- load l ;;
  match o with
  | PyList items => ret (length items)
  | _ => raise TypeError
  end.

(** [row[:]]: a new list with the items of [row]. *)
Definition copy_row (v : value) : St positive :=
  match v with
  | VRef r =>
      do o <- load r ;;
      match o with
      | PyList items => alloc (PyList items)
      | _ => raise TypeError
      end
  | VInt _ => raise TypeError
  end.

Fixpoint map_st {A B : Type} (f : A -> St B) (l : list A) : St (list B) :=
  match l with
  | [] => ret []
  | a :: l' => do b <- f a ;; do bs <- map_st f l' ;; ret (b :: bs)
  end.

(** [all(result[i][j] == 0 for ...)]: reads cells up to the first that is
    not 0. *)
Fixpoint all_off_st (result_ref : positive) (l : list (nat * nat)) : St bool :=
  match l with
  | [] => ret true
  | ij :: l' =>
      do v <- read_cell result_ref ij.1 ij.2 ;;
      if (v =? 0)%Z then all_off_st result_ref l' else ret false
  end.

Definition verify_solution_st (board_ref solution_ref : positive)
  : St (bool * positive) :=
  do rows <- len_st board_ref ;;
  do ob <- load board_ref ;;
  match ob with
  | PyList items =>
      match items with
      | [] => raise IndexError
      | VInt _ :: _ => raise TypeError
      | VRef row0 :: _ =>
          do cols <- len_st row0 ;;
          do refs <- map_st copy_row items ;;
          do result_ref <- alloc (PyList (VRef <$> refs)) ;;
          do _ <- for_each (cells rows cols)
                           (press_st rows cols solution_ref result_ref) ;;
          do all_off <- all_off_st result_ref (cells rows cols) ;;
          ret (all_off, result_ref)
      end
  | _ => raise TypeError
  end.

(** The reference [l] denotes the grid [R], stored in the row objects
    [refs]. *)
Definition holds_grid (h : gmap positive object) (l : positive)
  (refs : list positive) (R : list (list Z)) : Prop :=
  h !! l = Some (PyList (VRef <$> refs))
  /\ Forall2 (fun r row => h !! r = Some (PyList (VInt <$> row))) refs R.

(** The grid [R] at [l] is made of row objects that the store [h0] of the
    caller does not have, and [h] still has every object of [h0]. *)
Definition owns (h0 h : gmap positive object) (l : positive)
  (refs : list positive) (R : list (list Z)) : Prop :=
  h0 ⊆ h /\ holds_grid h l refs R /\ NoDup refs /\ (l ∉ refs)
  /\ Forall (fun r => h0 !! r = None) refs.

(** The grid [S] has a cell at every position of a board of [n] rows and [w]
    columns. *)
Definition covers (n w : nat) (S : list (list Z)) : Prop :=
  forall i j, i < n -> j < w -> j < length (row_of S i).

(** The computation [c], run while the grid at [l] is owned, writes only to
    the rows of that grid and raises nothing but [IndexError]. *)
Definition keeps {T : Type} (h0 : gmap positive object) (l : positive)
  (refs : list positive) (c : St T) : Prop :=
  forall h R, owns h0 h l refs R ->
    (exists R', owns h0 (c h).2 l refs R')
    /\ forall e, (c h).1 = Raises e -> e = IndexError.

(** * Properties *)

(** ** Reading vectors and matrices *)

Lemma get_ge (v : list Z) i : length v <= i -> get v i = 0%Z.
Proof. intros H. unfold get. by rewrite lookup_ge_None_2. Qed.

Lemma get_zeros m i : get (zeros m) i = 0%Z.
Proof.
  unfold get, zeros. destruct (decide (i < m)) as [H|H].
  - by rewrite lookup_replicate_2.
  - rewrite lookup_ge_None_2; [done|]. rewrite length_replicate. lia.
Qed.

Lemma get_insert (v : list Z) i j z :
  i < length v -> get (<[i := z]> v) j = if decide (j = i) then z else get v j.
Proof.
  intros H. unfold get. case_decide as Hj.
  - subst. by rewrite list_lookup_insert_eq.
  - by rewrite list_lookup_insert_ne.
Qed.

Lemma get_app_l (v w : list Z) i : i < length v -> get (v ++ w) i = get v i.
Proof. intros H. unfold get. by rewrite lookup_app_l. Qed.

Lemma get_snoc (v : list Z) z : get (v ++ [z]) (length v) = z.
Proof. unfold get. by rewrite list_lookup_middle. Qed.

Lemma row_of_ge (M : list (list Z)) r : length M <= r -> row_of M r = [].
Proof. intros H. unfold row_of. by rewrite lookup_ge_None_2. Qed.

Lemma entry_ge_row (M : list (list Z)) r c : length M <= r -> entry M r c = 0%Z.
Proof. intros H. unfold entry. by rewrite row_of_ge. Qed.

Lemma shape_row n w M r : shape n w M -> r < n -> length (row_of M r) = w.
Proof.
  intros [Hn Hw] Hr. unfold row_of.
  destruct (M !! r) as [x|] eqn:E.
  - simpl. by eapply (Forall_lookup_1 _ _ _ _ Hw E).
  - apply lookup_ge_None_1 in E. lia.
Qed.

Lemma shape_insert n w M r v :
  shape n w M -> length v = w -> shape n w (<[r := v]> M).
Proof.
  intros [Hn Hw] Hv. split.
  - by rewrite length_insert.
  - by apply Forall_insert.
Qed.

Lemma row_of_insert (M : list (list Z)) r v i :
  r < length M -> row_of (<[r := v]> M) i = if decide (i = r) then v else row_of M i.
Proof.
  intros H. unfold row_of. case_decide as Hi.
  - subst. by rewrite list_lookup_insert_eq.
  - by rewrite list_lookup_insert_ne.
Qed.

Lemma shape_zeros2 n m : shape n m (zeros2 n m).
Proof.
  split.
  - apply length_replicate.
  - apply Forall_replicate. apply length_replicate.
Qed.

Lemma entry_zeros2 n m r c : entry (zeros2 n m) r c = 0%Z.
Proof.
  unfold entry, row_of, zeros2. destruct (decide (r < n)) as [H|H].
  - rewrite lookup_replicate_2; [|done]. apply get_zeros.
  - rewrite lookup_ge_None_2; [done|]. rewrite length_replicate. lia.
Qed.

(** ** The coefficient matrix *)

Lemma set_entry_shape n w A l0 k0 : shape n w A -> shape n w (set_entry A l0 k0).
Proof.
  intros [Hn Hw]. split.
  - unfold set_entry. by rewrite length_alter.
  - unfold set_entry. apply Forall_alter; [done|].
    intros r Hr. by rewrite length_insert.
Qed.

Lemma set_entry_entry n w A l0 k0 l k :
  shape n w A -> l0 < n -> k0 < w ->
  entry (set_entry A l0 k0) l k
  = if (l =? l0) && (k =? k0) then 1%Z else entry A l k.
Proof.
  intros HS Hl Hk. unfold entry, row_of, set_entry.
  destruct (Nat.eqb_spec l l0) as [->|Hne]; simpl.
  - rewrite list_lookup_alter_eq.
    pose proof (shape_row n w A l0 HS Hl) as Hlen. unfold row_of in Hlen.
    destruct (A !! l0) as [r|] eqn:E; simpl in *.
    + rewrite get_insert; [|lia].
      destruct (Nat.eqb_spec k k0); by case_decide.
    + apply lookup_ge_None_1 in E. destruct HS. lia.
  - by rewrite list_lookup_alter_ne.
Qed.

Lemma press_column_shape n w rows cols a c A :
  shape n w A -> shape n w (press_column rows cols a c A).
Proof.
  intros HS. unfold press_column.
  repeat case_match; repeat apply set_entry_shape; done.
Qed.

Lemma press_column_entry rows cols a c A l k :
  shape (rows * cols) (rows * cols) A -> a < rows -> c < cols ->
  entry (press_column rows cols a c A) l k
  = if written rows cols a c l k then 1%Z else entry A l k.
Proof.
  intros HS Ha Hc. unfold press_column, written.
  assert (a * cols + c < rows * cols) as H0 by nia.
  destruct (Nat.ltb_spec 0 a) as [H1|H1];
  destruct (Nat.ltb_spec a (rows - 1)) as [H2|H2];
  destruct (Nat.ltb_spec 0 c) as [H3|H3];
  destruct (Nat.ltb_spec c (cols - 1)) as [H4|H4];
  repeat (erewrite set_entry_entry;
          [| repeat apply set_entry_shape; exact HS | nia | nia ]);
  simpl;
  destruct (k =? a * cols + c); rewrite ?andb_false_r, ?andb_true_r; simpl; try done;
  repeat (match goal with |- context [?x =? ?y] => destruct (x =? y) end; simpl; try done).
Qed.

Lemma press_row_shape n w rows cols a js A :
  shape n w A ->
  shape n w (fold_left (fun A j => press_column rows cols a j A) js A).
Proof.
  revert A. induction js as [|j js IH]; intros A HS; simpl; [done|].
  apply IH. by apply press_column_shape.
Qed.

Lemma press_row_entry rows cols a js A l k :
  shape (rows * cols) (rows * cols) A -> a < rows -> Forall (fun c => c < cols) js ->
  entry (fold_left (fun A j => press_column rows cols a j A) js A) l k
  = if existsb (fun c => written rows cols a c l k) js then 1%Z else entry A l k.
Proof.
  intros HS Ha Hjs. revert A HS.
  induction Hjs as [|j js Hj Hjs IH]; intros A HS; simpl; [done|].
  rewrite IH by (by apply press_column_shape).
  rewrite press_column_entry by done.
  destruct (written rows cols a j l k); simpl; [|done].
  by destruct (existsb _ js).
Qed.

Lemma press_all_entry rows cols rws A l k :
  shape (rows * cols) (rows * cols) A -> Forall (fun a => a < rows) rws ->
  let A' := fold_left
      (fun A i => fold_left (fun A j => press_column rows cols i j A) (seq 0 cols) A)
      rws A in
  shape (rows * cols) (rows * cols) A'
  /\ entry A' l k
     = if existsb (fun a => existsb (fun c => written rows cols a c l k) (seq 0 cols)) rws
       then 1%Z else entry A l k.
Proof.
  intros HS Hrws. revert A HS.
  induction Hrws as [|i rws Hi Hrws IH]; intros A HS; simpl; [done|].
  destruct (IH (fold_left (fun A j => press_column rows cols i j A) (seq 0 cols) A))
    as [HS' HE]; [by apply press_row_shape|].
  split; [done|]. rewrite HE.
  rewrite press_row_entry; [|done|done|].
  - destruct (existsb (fun c => written rows cols i c l k) (seq 0 cols)); simpl; [|done].
    by destruct (existsb _ rws).
  - apply Forall_forall. intros c Hc. apply list_elem_of_In, in_seq in Hc. lia.
Qed.

Lemma seq_below n : Forall (fun a => a < n) (seq 0 n).
Proof. apply Forall_forall. intros c Hc. apply list_elem_of_In, in_seq in Hc. lia. Qed.

Lemma build_matrix_shape rows cols :
  shape (rows * cols) (rows * cols) (build_matrix rows cols).
Proof.
  unfold build_matrix.
  by apply (press_all_entry rows cols (seq 0 rows) _ 0 0 (shape_zeros2 _ _) (seq_below rows)).
Qed.

Lemma build_matrix_written rows cols l k :
  entry (build_matrix rows cols) l k
  = if existsb (fun a => existsb (fun c => written rows cols a c l k) (seq 0 cols))
               (seq 0 rows)
    then 1%Z else 0%Z.
Proof.
  unfold build_matrix.
  destruct (press_all_entry rows cols (seq 0 rows) _ l k (shape_zeros2 _ _) (seq_below rows))
    as [_ ->].
  by rewrite entry_zeros2.
Qed.

Lemma flat_index_inj cols a c a' c' :
  c < cols -> c' < cols -> a * cols + c = a' * cols + c' -> a = a' /\ c = c'.
Proof. intros Hc Hc' H. assert (a = a') by nia. subst. lia. Qed.

Lemma elem_of_neighbours rows cols i j a c :
  (a, c) ∈ neighbours rows cols i j
  <-> (a + 1 = i /\ c = j) \/ (a = i + 1 /\ a < rows /\ c = j)
      \/ (a = i /\ c + 1 = j) \/ (a = i /\ c = j + 1 /\ c < cols).
Proof.
  unfold neighbours. rewrite !elem_of_app.
  destruct (Nat.ltb_spec 0 i); destruct (Nat.ltb_spec (i + 1) rows);
  destruct (Nat.ltb_spec 0 j); destruct (Nat.ltb_spec (j + 1) cols);
  rewrite ?list_elem_of_singleton, ?elem_of_nil, ?pair_equal_spec; lia.
Qed.

Lemma written_spec rows cols i j a c k :
  i < rows -> j < cols -> a < rows -> c < cols ->
  written rows cols a c (i * cols + j) k = true
  <-> k = a * cols + c
      /\ ((a, c) = (i, j) \/ (a, c) ∈ neighbours rows cols i j).
Proof.
  intros Hi Hj Ha Hc. unfold written.
  rewrite elem_of_neighbours, pair_equal_spec, andb_true_iff, !orb_true_iff,
    !andb_true_iff, !Nat.eqb_eq, !Nat.ltb_lt.
  split.
  - intros [-> H]. split; [done|].
    destruct H as [[[[H|[H0 H]]|[H0 H]]|[H0 H]]|[H0 H]];
      apply flat_index_inj in H; lia.
  - intros [-> H]. split; [done|].
    destruct H as [[-> ->]|[[<- ->]|[(-> & ? & ->)|[[-> <-]|(-> & -> & ?)]]]];
      first [ left; left; left; left; nia
            | left; left; left; right; split; [lia|nia]
            | left; left; right; split; [lia|nia]
            | left; right; split; [lia|nia]
            | right; split; [lia|nia] ].
Qed.

Lemma written_toggled rows cols i j i' j' :
  i < rows -> j < cols -> i' < rows -> j' < cols ->
  existsb (fun a => existsb (fun c => written rows cols a c (i * cols + j) (i' * cols + j'))
                            (seq 0 cols))
          (seq 0 rows)
  = toggled_by rows cols i j i' j'.
Proof.
  intros Hi Hj Hi' Hj'. unfold toggled_by.
  case_bool_decide as H.
  - apply existsb_exists. exists i'. split; [apply in_seq; lia|].
    apply existsb_exists. exists j'. split; [apply in_seq; lia|].
    by apply written_spec.
  - apply not_true_is_false. intros (a & Ha & Hex)%existsb_exists.
    apply existsb_exists in Hex as (c & Hc & Hw).
    apply in_seq in Ha, Hc.
    apply written_spec in Hw as [Hk Hw]; [|lia..].
    apply flat_index_inj in Hk as [-> ->]; [|lia..]. done.
Qed.

(** C3.  For a grid of [rows] by [cols] cells the constructed matrix is
    [rows * cols] square, and its entry at row [light = i * cols + j] and
    column [button = i' * cols + j'] is 1 exactly when the cell [(i', j')] is
    the cell [(i, j)] or one of its in-bounds up, down, left or right
    neighbours (no wrap-around); every other entry is 0. *)
Theorem build_matrix_adjacency rows cols i j i' j' :
  i < rows -> j < cols -> i' < rows -> j' < cols ->
  let A := build_matrix rows cols in
  shape (rows * cols) (rows * cols) A
  /\ (entry A (i * cols + j) (i' * cols + j') = 1%Z
      <-> (i', j') = (i, j) \/ (i', j') ∈ neighbours rows cols i j)
  /\ (entry A (i * cols + j) (i' * cols + j') = 1%Z
      \/ entry A (i * cols + j) (i' * cols + j') = 0%Z).
Proof.
  intros Hi Hj Hi' Hj' A. split; [apply build_matrix_shape|].
  subst A. rewrite build_matrix_written, written_toggled by done.
  unfold toggled_by. case_bool_decide as H; split; auto.
  - tauto.
  - split; [done|]. intros H'. by destruct H.
Qed.

Lemma build_matrix_adjacency_witness :
  entry (build_matrix 2 3) (0 * 3 + 1) (1 * 3 + 1) = 1%Z
  <-> (1, 1) = (0, 1) \/ (1, 1) ∈ neighbours 2 3 0 1.
Proof.
  apply (build_matrix_adjacency 2 3 0 1 1 1); lia.
Defined.

(** ** Row operations of the forward elimination *)

Lemma swap_rows_shape n w aug p r :
  shape n w aug -> p < n -> r < n -> shape n w (swap_rows aug p r).
Proof.
  intros HS Hp Hr. unfold swap_rows.
  apply shape_insert; [apply shape_insert; [done|]|]; by eapply shape_row.
Qed.

Lemma swap_rows_entry n w aug p r i c :
  shape n w aug -> p < n -> r < n ->
  entry (swap_rows aug p r) i c
  = entry aug (if decide (i = r) then p else if decide (i = p) then r else i) c.
Proof.
  intros [Hn Hw] Hp Hr. unfold entry, swap_rows.
  rewrite row_of_insert by (rewrite length_insert; lia).
  case_decide; [done|].
  rewrite row_of_insert by lia. by case_decide.
Qed.

Lemma add_rows_length (r p : list Z) :
  length r = length p -> length (add_rows r p) = length r.
Proof. intros H. unfold add_rows. rewrite length_zip_with. lia. Qed.

Lemma add_rows_get (r p : list Z) c :
  length r = length p ->
  get (add_rows r p) c = ((get r c + get p c) `mod` 2)%Z.
Proof.
  intros H. unfold get, add_rows. rewrite lookup_zip_with.
  destruct (r !! c) as [a|] eqn:Er; destruct (p !! c) as [b|] eqn:Ep; simpl; try done.
  - apply lookup_lt_Some in Er. apply lookup_ge_None_1 in Ep. lia.
  - apply lookup_ge_None_1 in Er. apply lookup_lt_Some in Ep. lia.
Qed.

Lemma eliminate_row_shape n w p col aug row :
  shape n w aug -> p < n -> row < n -> shape n w (eliminate_row p col aug row).
Proof.
  intros HS Hp Hr. unfold eliminate_row. case_match; [|done].
  apply shape_insert; [done|].
  rewrite add_rows_length; erewrite !shape_row; done.
Qed.

Lemma eliminate_row_entry n w p col aug row i c :
  shape n w aug -> p < n -> row < n ->
  entry (eliminate_row p col aug row) i c
  = if decide (i = row) then eliminated p col aug i c else entry aug i c.
Proof.
  intros HS Hp Hr. unfold eliminate_row, eliminated.
  case_decide as Hi.
  - subst i. case_match; [|done].
    unfold entry at 1. rewrite row_of_insert by (destruct HS; lia).
    rewrite decide_True by done.
    rewrite add_rows_get; [done|]. by erewrite !shape_row.
  - case_match; [|done].
    unfold entry at 1. rewrite row_of_insert by (destruct HS; lia).
    by rewrite decide_False.
Qed.

Lemma eliminated_frame n w p col aug row i c :
  shape n w aug -> p < n -> row < n -> i <> row ->
  eliminated p col (eliminate_row p col aug row) i c = eliminated p col aug i c.
Proof.
  intros HS Hp Hr Hi. unfold eliminated.
  rewrite !(eliminate_row_entry n w) by done.
  rewrite !decide_False by done.
  destruct (decide (p = row)) as [->|Hne]; [|done].
  unfold eliminated. by rewrite Nat.eqb_refl.
Qed.

Lemma eliminate_rows_entry n w p col rs aug i c :
  shape n w aug -> p < n -> Forall (fun r => r < n) rs -> NoDup rs ->
  let aug' := fold_left (eliminate_row p col) rs aug in
  shape n w aug'
  /\ entry aug' i c = if decide (i ∈ rs) then eliminated p col aug i c else entry aug i c.
Proof.
  intros HS Hp Hrs Hnd. revert aug HS.
  induction Hrs as [|r rs Hr Hrs IH]; intros aug HS; simpl.
  - done.
  - apply NoDup_cons in Hnd as [Hnotin Hnd].
    destruct (IH Hnd (eliminate_row p col aug r)) as [HS' HE];
      [by apply eliminate_row_shape|].
    split; [done|]. rewrite HE. clear HE.
    destruct (decide (i ∈ rs)) as [Hin|Hin].
    + rewrite decide_True by (by right).
      apply (eliminated_frame n w); try done. by intros ->.
    + rewrite (eliminate_row_entry n w) by done.
      destruct (decide (i = r)) as [->|Hne].
      * rewrite decide_True; [done|by left].
      * rewrite decide_False; [done|]. rewrite elem_of_cons. tauto.
Qed.

Lemma eliminate_shape n w p col aug :
  shape n w aug -> p < n -> shape n w (eliminate n p col aug).
Proof.
  intros HS Hp.
  by apply (eliminate_rows_entry n w p col (seq 0 n) aug 0 0 HS Hp (seq_below n)), NoDup_seq.
Qed.

Lemma eliminate_entry n w p col aug i c :
  shape n w aug -> p < n ->
  entry (eliminate n p col aug) i c = eliminated p col aug i c.
Proof.
  intros HS Hp. unfold eliminate.
  destruct (eliminate_rows_entry n w p col (seq 0 n) aug i c HS Hp (seq_below n))
    as [_ ->]; [apply NoDup_seq|].
  case_decide as Hi; [done|].
  assert (length aug <= i) as Hge.
  { destruct HS as [-> _]. destruct (decide (i < n)) as [Hlt|]; [|lia].
    destruct Hi. apply list_elem_of_In, in_seq. lia. }
  unfold eliminated. rewrite (entry_ge_row aug i col) by done.
  by rewrite andb_false_r.
Qed.

Lemma find_pivot_Some aug col rs row :
  find_pivot aug col rs = Some row -> row ∈ rs /\ entry aug row col = 1%Z.
Proof.
  induction rs as [|r rs IH]; simpl; [done|].
  destruct (Z.eqb_spec (entry aug r col) 1) as [He|He].
  - intros [= <-]. split; [by left|done].
  - intros H. destruct (IH H). split; [by right|done].
Qed.

Lemma find_pivot_None aug col rs row :
  find_pivot aug col rs = None -> row ∈ rs -> entry aug row col <> 1%Z.
Proof.
  induction rs as [|r rs IH]; simpl; [by intros _ ?%elem_of_nil|].
  destruct (Z.eqb_spec (entry aug r col) 1) as [He|He]; [done|].
  intros H [->|Hin]%elem_of_cons; auto.
Qed.

(** ** The invariant of the forward elimination *)

Lemma is_bit_mod2 (z : Z) : is_bit (z `mod` 2)%Z.
Proof. unfold is_bit. pose proof (Z.mod_pos_bound z 2). lia. Qed.

Lemma find_pivot_range n aug col pr row :
  find_pivot aug col (seq pr (n - pr)) = Some row ->
  pr <= row < n /\ entry aug row col = 1%Z.
Proof.
  intros [Hin He]%find_pivot_Some. split; [|done].
  apply list_elem_of_In, in_seq in Hin. lia.
Qed.

Lemma find_pivot_none_zero n m aug col pr i :
  shape n (m + 1) aug -> (forall i c, c < m -> is_bit (entry aug i c)) -> col < m ->
  find_pivot aug col (seq pr (n - pr)) = None -> pr <= i -> entry aug i col = 0%Z.
Proof.
  intros HS Hbits Hcol Hnone Hi.
  destruct (decide (i < n)) as [Hlt|Hge].
  - destruct (Hbits i col Hcol) as [H|H]; [done|].
    exfalso. eapply find_pivot_None; [done| |done].
    apply list_elem_of_In, in_seq. lia.
  - apply entry_ge_row. destruct HS as [-> _]. lia.
Qed.

Lemma reduced_no_pivot n m col aug pr pcs :
  reduced n m col aug pr pcs -> col < m ->
  find_pivot aug col (seq pr (n - pr)) = None ->
  reduced n m (S col) aug pr pcs.
Proof.
  intros [HS Hbits Hcount Hrows Hbefore Hunit Hlead Hbelow] Hcol Hnone.
  split; try done.
  - intros k c Hk. specialize (Hbefore k c Hk). lia.
  - intros i c Hi Hc. destruct (decide (c = col)) as [->|Hne].
    + by eapply find_pivot_none_zero.
    + apply Hbelow; [done|lia].
Qed.

Lemma pivot_step_entry n w aug pr row col i c :
  shape n w aug -> pr < n -> row < n ->
  entry (eliminate n pr col (swap_rows aug pr row)) i c
  = if negb (i =? pr) && (entry aug (swapped pr row i) col =? 1)%Z
    then ((entry aug (swapped pr row i) c + entry aug row c) `mod` 2)%Z
    else entry aug (swapped pr row i) c.
Proof.
  intros HS Hpr Hrow.
  rewrite (eliminate_entry n w); [|by apply swap_rows_shape|done].
  unfold eliminated. rewrite !(swap_rows_entry n w) by done.
  fold (swapped pr row i). fold (swapped pr row pr).
  replace (swapped pr row pr) with row; [done|].
  unfold swapped. repeat case_decide; congruence.
Qed.

Lemma reduced_pivot n m col aug pr pcs row :
  reduced n m col aug pr pcs -> col < m ->
  find_pivot aug col (seq pr (n - pr)) = Some row ->
  reduced n m (S col) (eliminate n pr col (swap_rows aug pr row)) (pr + 1)
          (pcs ++ [col]).
Proof.
  intros [HS Hbits Hcount Hrows Hbefore Hunit Hlead Hbelow] Hcol
    [Hrow Hone]%find_pivot_range.
  assert (forall i, pr <= i -> pr <= swapped pr row i) as Hsw_ge.
  { intros i Hi. unfold swapped. repeat case_decide; lia. }
  assert (forall i, i < pr -> swapped pr row i = i) as Hsw_lt.
  { intros i Hi. unfold swapped. repeat case_decide; lia. }
  assert (forall i k, k < pr -> swapped pr row i = k <-> i = k) as Hsw_eq.
  { intros i k Hk. unfold swapped. repeat case_decide; lia. }
  assert (swapped pr row pr = row) as Hsw_pr.
  { unfold swapped. repeat case_decide; congruence. }
  assert (forall k c i, (pcs ++ [col]) !! k = Some c ->
            entry (eliminate n pr col (swap_rows aug pr row)) i c
            = if decide (i = k) then 1%Z else 0%Z) as Hunit'.
  { intros k c i Hk. rewrite (pivot_step_entry n (m + 1)) by (done || lia).
    apply lookup_app_Some in Hk as [Hk|[Hge Hk]].
    - assert (k < pr) as Hlt by (apply lookup_lt_Some in Hk; lia).
      rewrite (Hunit k c row Hk), (Hunit k c (swapped pr row i) Hk).
      rewrite (decide_False (P := row = k)) by lia.
      pose proof (Hsw_eq i k Hlt) as Hik.
      destruct (decide (swapped pr row i = k)) as [He|Hne];
        destruct (decide (i = k)) as [He'|Hne']; try tauto; by case_match.
    - apply list_lookup_singleton_Some in Hk as [Hk <-].
      assert (k = pr) as -> by lia.
      rewrite Hone. destruct (Nat.eqb_spec i pr) as [->|Hne]; simpl.
      + rewrite Hsw_pr, decide_True by done. done.
      + rewrite decide_False by done.
        destruct (Z.eqb_spec (entry aug (swapped pr row i) col) 1) as [->|Hn1]; [done|].
        destruct (Hbits (swapped pr row i) col Hcol); done. }
  split.
  - apply (eliminate_shape n (m + 1)); [|lia]. apply swap_rows_shape; (done || lia).
  - intros i c Hc. rewrite (pivot_step_entry n (m + 1)) by (done || lia).
    case_match; [apply is_bit_mod2|by apply Hbits].
  - rewrite length_app. simpl. lia.
  - lia.
  - intros k c [Hk|[_ Hk]]%lookup_app_Some.
    + specialize (Hbefore k c Hk). lia.
    + apply list_lookup_singleton_Some in Hk as [_ <-]. lia.
  - done.
  - intros k c c' Hk Hc'. rewrite (pivot_step_entry n (m + 1)) by (done || lia).
    apply lookup_app_Some in Hk as [Hk|[Hge Hk]].
    + assert (k < pr) as Hlt by (apply lookup_lt_Some in Hk; lia).
      rewrite Hsw_lt by done.
      rewrite (Hlead k c c' Hk Hc').
      rewrite (Hbelow row c') by (specialize (Hbefore k c Hk); lia).
      by case_match.
    + apply list_lookup_singleton_Some in Hk as [Hk <-].
      assert (k = pr) as -> by lia.
      rewrite Nat.eqb_refl. simpl. rewrite Hsw_pr. apply Hbelow; lia.
  - intros i c Hi Hc. destruct (decide (c = col)) as [->|Hne].
    + rewrite (Hunit' pr col i).
      * rewrite decide_False; [done|lia].
      * rewrite lookup_app_r by lia. by rewrite Hcount, Nat.sub_diag.
    + rewrite (pivot_step_entry n (m + 1)) by (done || lia).
      rewrite (Hbelow (swapped pr row i) c) by (try apply Hsw_ge; lia).
      rewrite (Hbelow row c) by lia.
      by case_match.
Qed.

Lemma elimination_state_S n aug0 col :
  elimination_state n aug0 (S col)
  = elimination_step n (elimination_state n aug0 col) col.
Proof. unfold elimination_state. by rewrite seq_S, fold_left_app. Qed.

Lemma pivot_columns_S n aug0 col :
  pivot_columns n (S col) aug0
  = pivot_columns n col aug0 ++ (if found_pivot n aug0 col then [col] else []).
Proof.
  unfold pivot_columns. rewrite seq_S, filter_app. f_equal. simpl.
  rewrite filter_cons, filter_nil.
  destruct (found_pivot n aug0 col); by case_decide.
Qed.

Lemma reduced_state n m aug0 col :
  shape n (m + 1) aug0 -> (forall i c, c < m -> is_bit (entry aug0 i c)) ->
  col <= m ->
  reduced n m col (elimination_state n aug0 col).1 (elimination_state n aug0 col).2
          (pivot_columns n col aug0).
Proof.
  intros HS Hbits. induction col as [|col IH]; intros Hcol.
  - split; simpl; try done; try lia.
  - specialize (IH ltac:(lia)).
    rewrite elimination_state_S, pivot_columns_S. unfold found_pivot.
    destruct (elimination_state n aug0 col) as [aug pr]. simpl in *.
    destruct (find_pivot aug col (seq pr (n - pr))) as [row|] eqn:E; simpl.
    + by apply reduced_pivot.
    + rewrite app_nil_r. by apply reduced_no_pivot.
Qed.

Lemma column_stack_shape n m A b :
  shape n m A -> length b = n -> shape n (m + 1) (column_stack A b).
Proof.
  intros [Hn Hw] Hb. split.
  - unfold column_stack. rewrite length_zip_with. lia.
  - apply Forall_forall. intros r Hr. unfold column_stack in Hr.
    apply elem_of_zip_with in Hr as (r0 & v & -> & Hr0 & _).
    rewrite length_app. simpl.
    rewrite Forall_forall in Hw. by rewrite (Hw r0 Hr0).
Qed.

Lemma row_of_column_stack n m A b i :
  shape n m A -> length b = n -> i < n ->
  row_of (column_stack A b) i = row_of A i ++ [get b i].
Proof.
  intros [Hn Hw] Hb Hi. unfold row_of, column_stack, get.
  rewrite lookup_zip_with.
  destruct (lookup_lt_is_Some_2 A i) as [r ->]; [lia|].
  destruct (lookup_lt_is_Some_2 b i) as [v ->]; [lia|]. done.
Qed.

Lemma column_stack_entry n m A b i c :
  shape n m A -> length b = n -> c < m ->
  entry (column_stack A b) i c = entry A i c.
Proof.
  intros HS Hb Hc. destruct (decide (i < n)) as [Hi|Hi].
  - unfold entry. rewrite (row_of_column_stack n m) by done.
    apply get_app_l. by rewrite (shape_row n m).
  - rewrite !entry_ge_row; [done|destruct HS; lia|].
    destruct (column_stack_shape n m A b HS Hb) as [-> _]. lia.
Qed.

Lemma column_stack_target n m A b i :
  shape n m A -> length b = n ->
  entry (column_stack A b) i m = get b i.
Proof.
  intros HS Hb. destruct (decide (i < n)) as [Hi|Hi].
  - unfold entry. rewrite (row_of_column_stack n m) by done.
    pose proof (get_snoc (row_of A i) (get b i)) as H.
    by rewrite (shape_row n m A i HS Hi) in H.
  - rewrite entry_ge_row, get_ge; [done|lia|].
    destruct (column_stack_shape n m A b HS Hb) as [-> _]. lia.
Qed.

(** The matrix after the forward elimination of [A | b] satisfies the
    invariant at column [m], for the pivot columns of the run. *)
Lemma forward_elimination_reduced n m A b :
  shape n m A -> length b = n -> (forall i c, is_bit (entry A i c)) ->
  reduced n m m (forward_elimination n m (column_stack A b)).1
          (forward_elimination n m (column_stack A b)).2
          (pivot_columns n m (column_stack A b)).
Proof.
  intros HS Hb Hbits.
  apply (reduced_state n m (column_stack A b) m); [|  |done].
  - by apply column_stack_shape.
  - intros i c Hc. by rewrite (column_stack_entry n m).
Qed.

(** ** Back-substitution *)

Lemma find_seq_first (f : nat -> bool) a len c :
  a <= c < a + len -> f c = true -> (forall c', a <= c' < c -> f c' = false) ->
  find f (seq a len) = Some c.
Proof.
  revert a. induction len as [|len IH]; intros a Hc Hf Hbefore; simpl; [lia|].
  destruct (decide (a = c)) as [->|Hne].
  - by rewrite Hf.
  - rewrite Hbefore by lia. apply IH; [lia|done|]. intros c' Hc'. apply Hbefore. lia.
Qed.

Lemma leading_column_Some m r c :
  leading_column m r = Some c -> c < m /\ get r c = 1%Z.
Proof.
  unfold leading_column. intros [Hin He]%find_some.
  apply in_seq in Hin. split; [lia|]. by apply Z.eqb_eq.
Qed.

Lemma leading_column_first m r c :
  c < m -> get r c = 1%Z -> (forall c', c' < c -> get r c' = 0%Z) ->
  leading_column m r = Some c.
Proof.
  intros Hc He Hz. unfold leading_column. apply find_seq_first; [lia| |].
  - by apply Z.eqb_eq.
  - intros c' Hc'. rewrite Hz by lia. done.
Qed.

Lemma substitution_fold_None m aug rs :
  fold_left (substitution_step m aug) rs None = None.
Proof. induction rs as [|row rs IH]; simpl; done. Qed.

(** A property of [x] that every assignment [x[leading_col] = val] of the
    loop preserves holds of the returned vector. *)
Lemma substitution_fold_inv (P : list Z -> Prop) m aug rs x0 x :
  P x0 ->
  (forall x row c, P x -> row ∈ rs ->
     leading_column m (row_of aug row) = Some c ->
     P (<[c := row_value m (row_of aug row) x c]> x)) ->
  fold_left (substitution_step m aug) rs (Some x0) = Some x -> P x.
Proof.
  revert x0. induction rs as [|row rs IH]; intros x0 H0 Hstep; simpl.
  - by intros [= <-].
  - destruct (leading_column m (row_of aug row)) as [c|] eqn:E.
    + apply IH.
      * apply Hstep; [done|by left|done].
      * intros x' row' c' HP Hin. apply Hstep; [done|by right].
    + destruct (get (row_of aug row) m =? 1)%Z.
      * by rewrite substitution_fold_None.
      * apply IH; [done|]. intros x' row' c' HP Hin. apply Hstep; [done|by right].
Qed.

(** When every visited row has a leading column the loop never executes
    [return None]. *)
Lemma substitution_fold_Some m aug rs x0 :
  (forall row, row ∈ rs -> is_Some (leading_column m (row_of aug row))) ->
  is_Some (fold_left (substitution_step m aug) rs (Some x0)).
Proof.
  revert x0. induction rs as [|row rs IH]; intros x0 Hlead; simpl; [done|].
  destruct (Hlead row) as [c ->]; [by left|].
  apply IH. intros row' Hin. apply Hlead. by right.
Qed.

Lemma elem_of_substitution_range n pr row :
  row ∈ substitution_range n pr <-> row < pr /\ row < n.
Proof.
  unfold substitution_range. rewrite list_elem_of_In, <- in_rev, in_seq. lia.
Qed.

(** In a reduced matrix the leading column of a pivot row is its pivot
    column. *)
Lemma reduced_leading n m aug pr pcs k c :
  reduced n m m aug pr pcs -> pcs !! k = Some c ->
  leading_column m (row_of aug k) = Some c.
Proof.
  intros Hred Hk. apply leading_column_first.
  - by eapply red_before.
  - fold (entry aug k c). rewrite (red_unit _ _ _ _ _ _ Hred k c k Hk).
    by rewrite decide_True.
  - intros c' Hc'. by eapply (red_leading _ _ _ _ _ _ Hred).
Qed.

Lemma reduced_processed n m aug pr pcs row :
  reduced n m m aug pr pcs -> row ∈ substitution_range n pr ->
  exists c, pcs !! row = Some c /\ c < m /\ entry aug row c = 1%Z
            /\ leading_column m (row_of aug row) = Some c.
Proof.
  intros Hred [Hrow _]%elem_of_substitution_range.
  destruct (lookup_lt_is_Some_2 pcs row) as [c Hc].
  { by rewrite (red_count _ _ _ _ _ _ Hred). }
  exists c. split; [done|]. split; [by eapply red_before|]. split.
  - rewrite (red_unit _ _ _ _ _ _ Hred row c row Hc). by rewrite decide_True.
  - by eapply reduced_leading.
Qed.

(** ** The solver as a whole *)

Lemma bit_is_bit z : bit z = true <-> is_bit z.
Proof. unfold bit, is_bit. rewrite orb_true_iff, !Z.eqb_eq. done. Qed.

Lemma bits_get v i : bits v = true -> is_bit (get v i).
Proof.
  intros H. unfold get. destruct (v !! i) as [z|] eqn:E; simpl; [|by left].
  apply bit_is_bit. unfold bits in H. rewrite forallb_forall in H.
  apply H, list_elem_of_In. by eapply list_elem_of_lookup_2.
Qed.

Lemma bit_matrix_entry M i c : bit_matrix M = true -> is_bit (entry M i c).
Proof.
  intros H. unfold entry, row_of. destruct (M !! i) as [r|] eqn:E; simpl.
  - apply bits_get. unfold bit_matrix in H. rewrite forallb_forall in H.
    apply H, list_elem_of_In. by eapply list_elem_of_lookup_2.
  - by left.
Qed.

Lemma gaussian_elimination_gf2_unfold n m A b :
  shape n m A -> 1 <= n -> length b = n ->
  gaussian_elimination_gf2 A b
  = Returns (back_substitution n m (forward_elimination n m (column_stack A b)).1
                               (forward_elimination n m (column_stack A b)).2).
Proof.
  intros [Hn Hw] Hpos Hb. unfold gaussian_elimination_gf2.
  destruct A as [|row0 A]; [simpl in Hn; lia|].
  apply Forall_cons in Hw as [-> _]. rewrite Hb, Hn, Nat.eqb_refl.
  by destruct (forward_elimination n m _).
Qed.

Lemma gaussian_elimination_gf2_Returns A b r :
  gaussian_elimination_gf2 A b = Returns r -> 1 <= length b /\ length A = length b.
Proof.
  unfold gaussian_elimination_gf2. destruct A as [|row0 A]; [done|].
  destruct (Nat.eqb_spec (length (row0 :: A)) (length b)) as [He|]; [|done].
  intros _. rewrite <- He. simpl. lia.
Qed.

(** On a bit matrix the back-substitution finds a leading column in every
    row it visits and so always runs to [return x]. *)
Lemma back_substitution_is_Some n m A b :
  shape n m A -> length b = n -> bit_matrix A = true ->
  is_Some (back_substitution n m (forward_elimination n m (column_stack A b)).1
                             (forward_elimination n m (column_stack A b)).2).
Proof.
  intros HS Hb Hbits.
  pose proof (forward_elimination_reduced n m A b HS Hb
                (fun i c => bit_matrix_entry A i c Hbits)) as Hred.
  apply substitution_fold_Some. intros row Hrow.
  destruct (reduced_processed _ _ _ _ _ _ Hred Hrow) as (c & _ & _ & _ & ->). done.
Qed.

(** C10, as the code has it.  For a matrix of bits (any target vector),
    every row that the back-substitution loop visits, the rows below the
    final [pivot_row], keeps a 1 in a coefficient column after the forward
    elimination, so its leading column is found; the branch for a row
    without a leading column is never entered and the function returns a
    vector, never [None]. *)
Theorem processed_rows_have_leading_one n m A b :
  shape n m A -> length b = n -> bit_matrix A = true ->
  let aug := (forward_elimination n m (column_stack A b)).1 in
  let pivot_row := (forward_elimination n m (column_stack A b)).2 in
  (forall row, row ∈ substitution_range n pivot_row ->
     exists c, c < m /\ entry aug row c = 1%Z
               /\ leading_column m (row_of aug row) <> None)
  /\ back_substitution n m aug pivot_row <> None
  /\ (1 <= n -> exists x, gaussian_elimination_gf2 A b = Returns (Some x)).
Proof.
  intros HS Hb Hbits aug pivot_row.
  pose proof (forward_elimination_reduced n m A b HS Hb
                (fun i c => bit_matrix_entry A i c Hbits)) as Hred.
  pose proof (back_substitution_is_Some n m A b HS Hb Hbits) as [x Hx].
  fold aug pivot_row in Hred, Hx.
  split; [|split].
  - intros row Hrow.
    destruct (reduced_processed _ _ _ _ _ _ Hred Hrow) as (c & _ & Hc & He & Hl).
    exists c. split; [done|]. split; [done|]. by rewrite Hl.
  - by rewrite Hx.
  - intros Hn. exists x. rewrite (gaussian_elimination_gf2_unfold n m) by done.
    fold aug pivot_row. by rewrite Hx.
Qed.

Lemma processed_rows_have_leading_one_witness :
  exists x, gaussian_elimination_gf2 [[1; 1]; [1; 1]]%Z [1; 0]%Z = Returns (Some x).
Proof.
  apply (processed_rows_have_leading_one 2 2 [[1; 1]; [1; 1]]%Z [1; 0]%Z).
  - split; [reflexivity|]. repeat constructor.
  - reflexivity.
  - reflexivity.
  - lia.
Defined.

Lemma elem_of_pivot_columns n m aug0 col :
  col ∈ pivot_columns n m aug0 <-> col < m /\ found_pivot n aug0 col = true.
Proof.
  unfold pivot_columns. rewrite list_elem_of_filter, list_elem_of_In, in_seq.
  split; intros []; split; (done || lia).
Qed.

Lemma reduced_pivot_inj n m aug pr pcs k k' c :
  reduced n m m aug pr pcs -> pcs !! k = Some c -> pcs !! k' = Some c -> k = k'.
Proof.
  intros Hred Hk Hk'.
  pose proof (red_unit _ _ _ _ _ _ Hred k c k Hk) as H1.
  pose proof (red_unit _ _ _ _ _ _ Hred k' c k Hk') as H2.
  rewrite decide_True in H1 by done. rewrite H1 in H2.
  by destruct (decide (k = k')).
Qed.

(** In a pivot row of a reduced matrix, against a vector that is zero on
    the free columns, only the term of the pivot column can be non-zero. *)
Lemma reduced_row_terms n m aug pr pcs x k c c' :
  reduced n m m aug pr pcs -> (forall col, col ∉ pcs -> get x col = 0%Z) ->
  pcs !! k = Some c -> c' <> c ->
  (entry aug k c' * get x c')%Z = 0%Z.
Proof.
  intros Hred Hfree Hk Hne.
  destruct (decide (c' ∈ pcs)) as [Hin|Hnotin].
  - apply list_elem_of_lookup in Hin as [k' Hk'].
    rewrite (red_unit _ _ _ _ _ _ Hred k' c' k Hk').
    rewrite decide_False; [done|]. intros ->. congruence.
  - rewrite (Hfree c' Hnotin). lia.
Qed.

Lemma row_value_vanish m r x c :
  (forall c', c < c' -> (get r c' * get x c')%Z = 0%Z) ->
  (row_value m r x c `mod` 2 = get r m `mod` 2)%Z.
Proof.
  intros Hz. unfold row_value.
  assert (Forall (fun c' => c < c') (seq (c + 1) (m - (c + 1)))) as Hl.
  { apply Forall_forall. intros c' Hc'%list_elem_of_In%in_seq. lia. }
  revert Hl. generalize (get r m).
  induction (seq (c + 1) (m - (c + 1))) as [|c' l IH]; intros val Hl; simpl; [done|].
  apply Forall_cons in Hl as [Hc' Hl].
  rewrite IH by done. rewrite (Hz c' Hc'), Z.add_0_r. apply Zmod_mod.
Qed.

(** The loop over a list of distinct pivot rows: each visited row fixes its
    pivot column to the target bit of the row, the other entries of [x]
    stay as they were. *)
Lemma substitution_fold_pivots n m aug pr pcs rs x0 x :
  reduced n m m aug pr pcs ->
  Forall (fun row => row ∈ substitution_range n pr) rs -> NoDup rs ->
  length x0 = m -> (forall col, col ∉ pcs -> get x0 col = 0%Z) ->
  fold_left (substitution_step m aug) rs (Some x0) = Some x ->
  length x = m
  /\ (forall col, col ∉ pcs -> get x col = 0%Z)
  /\ (forall k c, pcs !! k = Some c -> k ∈ rs ->
        (get x c `mod` 2 = entry aug k m `mod` 2)%Z)
  /\ (forall k c, pcs !! k = Some c -> k ∉ rs -> get x c = get x0 c).
Proof.
  intros Hred Hrs Hnd. revert x0.
  induction Hrs as [|row rs Hrow Hrs IH]; intros x0 Hlen Hfree; simpl.
  - intros [= <-]. split; [done|]. split; [done|]. split; [|done].
    by intros k c _ ?%elem_of_nil.
  - apply NoDup_cons in Hnd as [Hnotin Hnd].
    destruct (reduced_processed _ _ _ _ _ _ Hred Hrow) as (c0 & Hc0 & Hm & _ & ->).
    set (v := row_value m (row_of aug row) x0 c0).
    intros Hfold.
    destruct (IH Hnd (<[c0 := v]> x0)) as (Hlen' & Hfree' & Hin' & Hout'); try done.
    { by rewrite length_insert. }
    { intros col Hcol. rewrite get_insert by lia.
      rewrite decide_False; [by apply Hfree|].
      intros ->. apply Hcol. by eapply list_elem_of_lookup_2. }
    split; [done|]. split; [done|]. split.
    + intros k c Hk [->|Hin]%elem_of_cons; [|by apply Hin'].
      assert (c = c0) as -> by congruence.
      rewrite (Hout' row c0 Hc0 Hnotin), get_insert, decide_True by (done || lia).
      apply row_value_vanish. intros c' Hc'.
      apply (reduced_row_terms n m aug pr pcs x0 row c0); (done || lia).
    + intros k c Hk Hnot. rewrite elem_of_cons in Hnot.
      rewrite (Hout' k c Hk) by tauto.
      rewrite get_insert by lia. rewrite decide_False; [done|].
      intros ->. destruct Hnot. left.
      by eapply (reduced_pivot_inj n m aug pr pcs).
Qed.



(** The two results above are about matrices of bits, which is what
    [solve_lights_out] builds.  With an entry outside {0, 1} a reduction
    [% 2] can destroy the 1 of a pivot or create a 1 in a free column. *)

(** C10 (the claim fails for a matrix with an entry outside {0, 1}).  On
    [A = [[1, 1], [3, 1]]] and [b = [1, 0]] both columns become pivots, so
    the back-substitution visits the rows 1 and 0; row 0 was reduced to
    [[0, 0 | 1]] by the elimination of column 1, it has no leading column,
    the branch for such a row is entered and the function returns [None]. *)
Remark bits_needed_for_leading_one :
  bit_matrix [[1; 1]; [3; 1]]%Z = false
  /\ forward_elimination 2 2 (column_stack [[1; 1]; [3; 1]]%Z [1; 0]%Z)
     = ([[0; 0; 1]; [3; 1; 0]]%Z, 2)
  /\ substitution_range 2 2 = [1; 0]
  /\ leading_column 2 [0; 0; 1]%Z = None
  /\ gaussian_elimination_gf2 [[1; 1]; [3; 1]]%Z [1; 0]%Z = Returns None.
Proof. repeat split; reflexivity. Qed.


(** ** Properties of a column kept by the row operations *)

Section column_property.
Variable P : Z -> Prop.
Hypothesis P_add : forall a b, P a -> P b -> P ((a + b) `mod` 2)%Z.

Lemma elimination_step_column n w aug pr col c :
  shape n w aug -> pr <= n -> (forall i, P (entry aug i c)) ->
  shape n w (elimination_step n (aug, pr) col).1
  /\ (elimination_step n (aug, pr) col).2 <= n
  /\ forall i, P (entry (elimination_step n (aug, pr) col).1 i c).
Proof.
  intros HS Hpr HP. unfold elimination_step.
  destruct (find_pivot aug col (seq pr (n - pr))) as [row|] eqn:E; simpl; [|done].
  apply find_pivot_range in E as [Hrow _].
  split; [|split].
  - apply (eliminate_shape n w); [|lia]. apply swap_rows_shape; (done || lia).
  - lia.
  - intros i. rewrite (pivot_step_entry n w) by (done || lia).
    case_match; [by apply P_add|done].
Qed.

Lemma elimination_fold_column n w cols aug pr c :
  shape n w aug -> pr <= n -> (forall i, P (entry aug i c)) ->
  shape n w (fold_left (elimination_step n) cols (aug, pr)).1
  /\ forall i, P (entry (fold_left (elimination_step n) cols (aug, pr)).1 i c).
Proof.
  revert aug pr. induction cols as [|col cols IH]; intros aug pr HS Hpr HP.
  - done.
  - cbn [fold_left].
    destruct (elimination_step_column n w aug pr col c HS Hpr HP) as (HS' & Hpr' & HP').
    destruct (elimination_step n (aug, pr) col) as [aug' pr']. by apply IH.
Qed.

Lemma forward_elimination_column n w m aug c :
  shape n w aug -> (forall i, P (entry aug i c)) ->
  forall i, P (entry (forward_elimination n m aug).1 i c).
Proof.
  intros HS HP. apply (elimination_fold_column n w); (done || lia).
Qed.
End column_property.

Lemma row_value_bit m r x c : is_bit (get r m) -> is_bit (row_value m r x c).
Proof.
  unfold row_value. generalize (get r m).
  induction (seq (c + 1) (m - (c + 1))) as [|col l IH]; intros val Hval; simpl; [done|].
  apply IH, is_bit_mod2.
Qed.

Lemma row_value_zeros m r c : get r m = 0%Z -> row_value m r (zeros m) c = 0%Z.
Proof.
  unfold row_value. intros ->.
  induction (seq (c + 1) (m - (c + 1))) as [|col l IH]; simpl; [done|].
  rewrite get_zeros. by rewrite Z.mul_0_r.
Qed.

(** Bits in, bits out: with a target column of bits the returned vector
    holds bits. *)
Lemma back_substitution_bits n m aug pr x :
  (forall i, is_bit (entry aug i m)) ->
  back_substitution n m aug pr = Some x ->
  length x = m /\ forall c, is_bit (get x c).
Proof.
  intros Htarget. unfold back_substitution.
  apply (substitution_fold_inv (fun x => length x = m /\ forall c, is_bit (get x c))).
  - split; [apply length_replicate|]. intros c. rewrite get_zeros. by left.
  - intros x' row c [Hlen Hx] _ [Hc _]%leading_column_Some.
    split; [by rewrite length_insert|].
    intros c'. rewrite get_insert by lia. case_decide; [|done].
    apply row_value_bit, Htarget.
Qed.

(** A zero target column gives the zero vector. *)
Lemma back_substitution_zeros n m aug pr :
  (forall i, entry aug i m = 0%Z) ->
  back_substitution n m aug pr = Some (zeros m).
Proof.
  intros Htarget. unfold back_substitution.
  induction (substitution_range n pr) as [|row rs IH]; simpl; [done|].
  destruct (leading_column m (row_of aug row)) as [c|] eqn:E.
  - apply leading_column_Some in E as [Hc _].
    rewrite row_value_zeros by apply Htarget.
    rewrite list_insert_id; [done|]. by apply lookup_replicate_2.
  - fold (entry aug row m). by rewrite Htarget.
Qed.

(** ** Flattening the board and reshaping the solution *)

Lemma elem_of_cells rows cols i j :
  (i, j) ∈ cells rows cols <-> i < rows /\ j < cols.
Proof.
  unfold cells. rewrite list_elem_of_In, in_flat_map. split.
  - intros (a & Ha%in_seq & Hin). apply in_map_iff in Hin as (c & [= <- <-] & Hc%in_seq).
    lia.
  - intros [Hi Hj]. exists i. split; [apply in_seq; lia|].
    apply in_map_iff. exists j. split; [done|]. apply in_seq. lia.
Qed.

Lemma cells_length rows cols : length (cells rows cols) = rows * cols.
Proof.
  unfold cells. generalize 0 at 2. induction rows as [|rows IH]; intros a; simpl; [done|].
  rewrite length_app, length_map, length_seq, IH. done.
Qed.

Lemma flatten_board_length board rows cols b :
  flatten_board board rows cols = Some b -> length b = rows * cols.
Proof.
  intros H%length_mapM. by rewrite <- H, cells_length.
Qed.

(** Every element of the flattened board is a cell of the board. *)
Lemma flatten_board_elem board rows cols b z :
  flatten_board board rows cols = Some b -> z ∈ b ->
  exists r, r ∈ board /\ z ∈ r.
Proof.
  intros H%mapM_Some Hz.
  apply list_elem_of_lookup in Hz as [k Hk].
  destruct (Forall2_lookup_r _ _ _ _ _ H Hk) as ([i j] & _ & Hij). simpl in Hij.
  destruct (board !! i) as [r|] eqn:Hr; simpl in Hij; [|done].
  exists r. split; by eapply list_elem_of_lookup_2.
Qed.

Lemma mapM_const {A B : Type} (f : A -> option B) (l : list A) (y : B) :
  (forall x, x ∈ l -> f x = Some y) -> mapM f l = Some (replicate (length l) y).
Proof.
  induction l as [|x l IH]; intros H; simpl; [done|].
  rewrite (H x) by (by left). simpl.
  rewrite IH by (intros x' Hx'; apply H; by right). done.
Qed.

Lemma flatten_board_zeros rows cols :
  flatten_board (zeros2 rows cols) rows cols = Some (zeros (rows * cols)).
Proof.
  unfold flatten_board. rewrite <- cells_length. apply mapM_const.
  intros [i j] [Hi Hj]%elem_of_cells. simpl. unfold zeros2, zeros.
  rewrite lookup_replicate_2 by done. simpl. by rewrite lookup_replicate_2.
Qed.

Lemma to_grid_shape rows cols x : shape rows cols (to_grid rows cols x).
Proof.
  unfold to_grid. split.
  - by rewrite length_map, length_seq.
  - apply Forall_forall. intros r Hr%list_elem_of_In.
    apply in_map_iff in Hr as (i & <- & _). by rewrite length_map, length_seq.
Qed.

Lemma to_grid_bits rows cols x :
  (forall c, is_bit (get x c)) -> bit_matrix (to_grid rows cols x) = true.
Proof.
  intros Hx. unfold bit_matrix, to_grid. apply forallb_forall.
  intros r (i & <- & _)%in_map_iff. unfold bits. apply forallb_forall.
  intros z (j & <- & _)%in_map_iff. by apply bit_is_bit.
Qed.

Lemma to_grid_zeros rows cols : to_grid rows cols (zeros (rows * cols)) = zeros2 rows cols.
Proof.
  unfold to_grid, zeros2.
  assert (forall a (l : list nat), map (fun j : nat => get (zeros (rows * cols)) (a * cols + j)) l
                 = replicate (length l) 0%Z) as Hrow.
  { intros a l. induction l as [|j l IH]; simpl; [done|]. by rewrite get_zeros, IH. }
  assert (forall l : list nat,
            map (fun i => map (fun j => get (zeros (rows * cols)) (i * cols + j)) (seq 0 cols)) l
            = replicate (length l) (zeros cols)) as Hall.
  { intros l. induction l as [|i l IH]; simpl; [done|].
    by rewrite Hrow, length_seq, IH. }
  by rewrite Hall, length_seq.
Qed.

Lemma forallb_replicate {A : Type} (f : A -> bool) n x :
  f x = true -> forallb f (replicate n x) = true.
Proof. intros H. induction n as [|n IH]; simpl; [done|]. by rewrite H, IH. Qed.

(** What [solve_lights_out] does once the board has been read. *)
Lemma solve_lights_out_read board b :
  1 <= length board ->
  flatten_board board (length board) (length (row_of board 0)) = Some b ->
  forallb fits_int64 b = true ->
  solve_lights_out board
  = match gaussian_elimination_gf2
            (build_matrix (length board) (length (row_of board 0))) b with
    | Raises e => Raises e
    | Returns None => Returns None
    | Returns (Some solution_vector) =>
        Returns (Some (to_grid (length board) (length (row_of board 0))
                               solution_vector))
    end.
Proof.
  intros Hlen Hb Hfits. unfold solve_lights_out.
  destruct board as [|row0 rest]; [simpl in Hlen; lia|].
  change (row_of (row0 :: rest) 0) with row0 in *.
  by rewrite Hb, Hfits.
Qed.

(** The outcomes of [solve_lights_out] that return a grid. *)
Lemma solve_lights_out_Some board solution :
  solve_lights_out board = Returns (Some solution) ->
  exists b x,
    1 <= length board
    /\ flatten_board board (length board) (length (row_of board 0)) = Some b
    /\ gaussian_elimination_gf2
         (build_matrix (length board) (length (row_of board 0))) b
       = Returns (Some x)
    /\ solution = to_grid (length board) (length (row_of board 0)) x.
Proof.
  unfold solve_lights_out. destruct board as [|row0 rest]; [done|].
  change (row_of (row0 :: rest) 0) with row0.
  destruct (flatten_board _ _ _) as [b|] eqn:Hb; [|done].
  destruct (forallb fits_int64 b); [|done].
  destruct (gaussian_elimination_gf2 _ b) as [e|[x|]] eqn:Hg; try done.
  intros [= <-]. exists b, x. repeat split; try done. simpl. lia.
Qed.

(** ** [solve_lights_out] *)

Lemma flatten_board_bits board rows cols b i :
  bit_matrix board = true -> flatten_board board rows cols = Some b ->
  is_bit (get b i).
Proof.
  intros Hbits Hb. unfold get. destruct (b !! i) as [z|] eqn:E; simpl; [|by left].
  destruct (flatten_board_elem board rows cols b z Hb) as (r & Hr & Hz).
  { by eapply list_elem_of_lookup_2. }
  apply bit_is_bit. unfold bit_matrix in Hbits. rewrite forallb_forall in Hbits.
  specialize (Hbits r ltac:(by apply list_elem_of_In)).
  unfold bits in Hbits. rewrite forallb_forall in Hbits.
  by apply Hbits, list_elem_of_In.
Qed.

(** C5, as the code has it.  Whenever [solve_lights_out] returns a grid for
    a board with [R] rows whose first row has [C] entries, the grid has
    exactly [R] rows of [C] entries each; and when the cells of the board
    are bits, every entry of the grid is 0 or 1. *)
Theorem solution_grid_shape board solution :
  solve_lights_out board = Returns (Some solution) ->
  shape (length board) (length (row_of board 0)) solution
  /\ (bit_matrix board = true -> bit_matrix solution = true).
Proof.
  intros (b & x & Hrows & Hb & Hg & ->)%solve_lights_out_Some.
  split; [apply to_grid_shape|].
  intros Hbits. apply to_grid_bits.
  pose proof (flatten_board_length _ _ _ _ Hb) as Hlen.
  pose proof (gaussian_elimination_gf2_Returns _ _ _ Hg) as [Hn _].
  set (n := length board * length (row_of board 0)) in *.
  pose proof (build_matrix_shape (length board) (length (row_of board 0))) as HS.
  fold n in HS.
  rewrite (gaussian_elimination_gf2_unfold n n) in Hg by (done || lia).
  injection Hg as Hg.
  eapply back_substitution_bits; [|exact Hg].
  apply (forward_elimination_column is_bit (fun a c _ _ => is_bit_mod2 (a + c)) n (n + 1)).
  - by apply column_stack_shape.
  - intros i. rewrite (column_stack_target n n) by done.
    by eapply flatten_board_bits.
Qed.

Lemma solution_grid_shape_witness :
  shape 3 3 [[1; 1; 0]; [1; 0; 0]; [0; 0; 1]]%Z
  /\ (bit_matrix [[1; 0; 1]; [0; 0; 1]; [1; 1; 1]]%Z = true ->
      bit_matrix [[1; 1; 0]; [1; 0; 0]; [0; 0; 1]]%Z = true).
Proof.
  apply (solution_grid_shape [[1; 0; 1]; [0; 0; 1]; [1; 1; 1]]%Z).
  vm_compute. reflexivity.
Defined.

(** C5 (the claim fails for a board with a cell outside {0, 1}).  For the
    board [[3]] the system is the single equation [x = 3]; the target is
    copied into [x] without a reduction, and the grid [[3]] is returned: it
    has the shape of the board and an entry that is neither 0 nor 1. *)
Lemma solution_grid_entry_not_bit :
  solve_lights_out [[3]]%Z = Returns (Some [[3]]%Z)
  /\ entry [[3]]%Z 0 0 = 3%Z
  /\ bit_matrix [[3]]%Z = false.
Proof. repeat split; vm_compute; reflexivity. Qed.

Lemma gaussian_elimination_gf2_zeros n m A :
  shape n m A -> 1 <= n ->
  gaussian_elimination_gf2 A (zeros n) = Returns (Some (zeros m)).
Proof.
  intros HS Hn.
  assert (length (zeros n) = n) as Hlen by apply length_replicate.
  rewrite (gaussian_elimination_gf2_unfold n m) by done.
  f_equal. apply back_substitution_zeros.
  assert (forall a c : Z, a = 0%Z -> c = 0%Z -> ((a + c) `mod` 2)%Z = 0%Z) as Hadd
    by (by intros a c -> ->).
  apply (forward_elimination_column (fun z => z = 0%Z) Hadd n (m + 1)).
  - by apply column_stack_shape.
  - intros i. rewrite (column_stack_target n m) by done. apply get_zeros.
Qed.

(** C7.  For an all-zero board of [rows >= 1] by [cols >= 1] cells,
    [solve_lights_out] returns the all-zero grid of the same shape. *)
Theorem all_zero_board_solved rows cols :
  1 <= rows -> 1 <= cols ->
  solve_lights_out (zeros2 rows cols) = Returns (Some (zeros2 rows cols)).
Proof.
  intros Hrows Hcols.
  assert (length (zeros2 rows cols) = rows) as Hlen by apply length_replicate.
  assert (length (row_of (zeros2 rows cols) 0) = cols) as Hrow.
  { rewrite (shape_row rows cols); [done|apply shape_zeros2|lia]. }
  rewrite (solve_lights_out_read _ (zeros (rows * cols))); rewrite ?Hlen, ?Hrow.
  - rewrite (gaussian_elimination_gf2_zeros (rows * cols) (rows * cols));
      [|apply build_matrix_shape|nia].
    by rewrite to_grid_zeros.
  - lia.
  - apply flatten_board_zeros.
  - by apply forallb_replicate.
Qed.

Lemma all_zero_board_solved_witness :
  solve_lights_out [[0; 0]; [0; 0]]%Z = Returns (Some [[0; 0]; [0; 0]]%Z).
Proof.
  apply (all_zero_board_solved 2 2); lia.
Defined.

(** ** Replaying presses, and boards without a solution *)

(** [verify_solution] reads the solution only through the tests
    [solution[i][j] == 1] at the cells of the board. *)
Lemma verify_solution_ext board S S' :
  (forall i j, (i, j) ∈ cells (length board) (length (row_of board 0)) ->
     (entry S i j =? 1)%Z = (entry S' i j =? 1)%Z) ->
  verify_solution board S = verify_solution board S'.
Proof.
  intros Hext. unfold verify_solution, replay.
  set (rows := length board). set (cols := length (row_of board 0)).
  fold rows cols in Hext.
  assert (forall result,
            fold_left (apply_press rows cols S) (cells rows cols) result
            = fold_left (apply_press rows cols S') (cells rows cols) result) as ->; [|done].
  induction (cells rows cols) as [|[i j] l IH]; intros result; [done|].
  cbn [fold_left]. rewrite IH.
  - f_equal. unfold apply_press. rewrite (Hext i j); [done|by left].
  - intros i' j' Hin. apply Hext. by right.
Qed.

Lemma verify_solution_presses board S :
  length board = 1 ->
  verify_solution board S
  = verify_solution board
      (presses (map (fun j => (entry S 0 j =? 1)%Z) (seq 0 (length (row_of board 0))))).
Proof.
  intros Hlen. apply verify_solution_ext. rewrite Hlen.
  intros i j [Hi Hj]%elem_of_cells. assert (i = 0) as -> by lia.
  unfold presses, entry at 2, row_of, get. simpl.
  rewrite !list_lookup_fmap, lookup_seq_lt by done. simpl.
  by destruct (entry S 0 j =? 1)%Z.
Qed.

Lemma bit_matrix_intro n w M :
  shape n w M -> (forall i c, is_bit (entry M i c)) -> bit_matrix M = true.
Proof.
  intros _ Hbits. unfold bit_matrix. apply forallb_forall.
  intros r [i Hi]%list_elem_of_In%list_elem_of_lookup.
  unfold bits. apply forallb_forall.
  intros z [c Hc]%list_elem_of_In%list_elem_of_lookup.
  apply bit_is_bit. specialize (Hbits i c).
  unfold entry, row_of, get in Hbits. rewrite Hi in Hbits. simpl in Hbits.
  by rewrite Hc in Hbits.
Qed.

Lemma build_matrix_bits rows cols : bit_matrix (build_matrix rows cols) = true.
Proof.
  apply (bit_matrix_intro _ _ _ (build_matrix_shape rows cols)).
  intros i c. rewrite build_matrix_written. case_match; [by right|by left].
Qed.

(** The no-solution signal is never produced: whatever the board, the
    solver called on the toggle matrix returns a vector. *)
Lemma solve_lights_out_never_None board : solve_lights_out board <> Returns None.
Proof.
  unfold solve_lights_out. destruct board as [|row0 rest]; [done|].
  destruct (flatten_board _ _ _) as [b|] eqn:Hb; [|done].
  destruct (forallb fits_int64 b); [|done].
  destruct (gaussian_elimination_gf2 _ b) as [e|[x|]] eqn:Hg; try done.
  pose proof (gaussian_elimination_gf2_Returns _ _ _ Hg) as [Hn _].
  pose proof (flatten_board_length _ _ _ _ Hb) as Hlen.
  set (n := length (row0 :: rest) * length row0) in *.
  pose proof (build_matrix_shape (length (row0 :: rest)) (length row0)) as HS.
  fold n in HS.
  rewrite (gaussian_elimination_gf2_unfold n n) in Hg by (done || lia).
  injection Hg as Hg.
  destruct (back_substitution_is_Some n n _ b HS Hlen (build_matrix_bits _ _)) as [x Hx].
  cbn [length] in Hx. congruence.
Qed.

(** C1 (the code fails the claim).  On the board [[1, 0]] the solver
    returns the grid [[1, 0]], and replaying that grid leaves the light at
    [(0, 1)] on: [verify_solution] reports [False]. *)
Theorem spurious_solution_returned :
  solve_lights_out [[1; 0]]%Z = Returns (Some [[1; 0]]%Z)
  /\ verify_solution [[1; 0]]%Z [[1; 0]]%Z = (false, [[0; 1]]%Z).
Proof. split; vm_compute; reflexivity. Qed.

(** C2 (the code fails the claim).  The single-row board [[1, 0, 0, 0, 0]]
    has no solution: no grid of presses turns all its lights off.  The
    forward elimination ends with [pivot_row = 4] and a last row whose
    coefficients are all zero and whose target entry is 1, yet the solver
    returns a vector and [solve_lights_out] a grid instead of [None]. *)
Theorem unsolvable_board_not_detected :
  (forall S, (verify_solution [[1; 0; 0; 0; 0]]%Z S).1 = false)
  /\ (forward_elimination 5 5 (column_stack (build_matrix 1 5) [1; 0; 0; 0; 0]%Z)).2 = 4
  /\ row_of (forward_elimination 5 5
               (column_stack (build_matrix 1 5) [1; 0; 0; 0; 0]%Z)).1 4
     = [0; 0; 0; 0; 0; 1]%Z
  /\ gaussian_elimination_gf2 (build_matrix 1 5) [1; 0; 0; 0; 0]%Z
     = Returns (Some [1; 0; 1; 1; 0]%Z)
  /\ solve_lights_out [[1; 0; 0; 0; 0]]%Z = Returns (Some [[1; 0; 1; 1; 0]]%Z).
Proof.
  split; [|repeat split; vm_compute; reflexivity].
  intros S. rewrite verify_solution_presses by reflexivity.
  change (length (row_of [[1; 0; 0; 0; 0]%Z] 0)) with 5.
  cbn [seq map].
  generalize (entry S 0 0 =? 1)%Z (entry S 0 1 =? 1)%Z (entry S 0 2 =? 1)%Z
             (entry S 0 3 =? 1)%Z (entry S 0 4 =? 1)%Z.
  intros [] [] [] [] []; vm_compute; reflexivity.
Qed.

(** ** Boards that are not well formed *)

Lemma build_matrix_no_columns rows : build_matrix rows 0 = [].
Proof.
  pose proof (build_matrix_shape rows 0) as [Hlen _].
  rewrite Nat.mul_0_r in Hlen. by apply nil_length_inv.
Qed.

Lemma cells_no_columns rows : cells rows 0 = [].
Proof.
  apply nil_length_inv. rewrite cells_length. lia.
Qed.

Lemma flatten_board_None board cols :
  flatten_board board (length board) cols = None
  <-> existsb (fun r => length r <? cols) board = true.
Proof.
  unfold flatten_board. rewrite mapM_None, Exists_exists, existsb_exists. split.
  - intros ([i j] & [Hi Hj]%elem_of_cells & Hnone). simpl in Hnone.
    destruct (lookup_lt_is_Some_2 board i Hi) as [r Hr].
    rewrite Hr in Hnone. simpl in Hnone.
    exists r. split; [by eapply list_elem_of_In, list_elem_of_lookup_2|].
    apply Nat.ltb_lt. apply lookup_ge_None_1 in Hnone. lia.
  - intros (r & [i Hi]%list_elem_of_In%list_elem_of_lookup & Hlt%Nat.ltb_lt).
    exists (i, length r). split.
    + apply elem_of_cells. split; [by eapply lookup_lt_Some|done].
    + simpl. rewrite Hi. simpl. by apply lookup_ge_None_2.
Qed.

Lemma flatten_board_fits board rows cols b :
  forallb (forallb fits_int64) board = true ->
  flatten_board board rows cols = Some b -> forallb fits_int64 b = true.
Proof.
  intros Hfits Hb. apply forallb_forall. intros z Hz%list_elem_of_In.
  destruct (flatten_board_elem board rows cols b z Hb Hz) as (r & Hr & Hzr).
  rewrite forallb_forall in Hfits. specialize (Hfits r ltac:(by apply list_elem_of_In)).
  rewrite forallb_forall in Hfits. by apply Hfits, list_elem_of_In.
Qed.

Lemma gaussian_elimination_gf2_build rows cols b :
  1 <= rows * cols -> length b = rows * cols ->
  exists x, gaussian_elimination_gf2 (build_matrix rows cols) b = Returns (Some x).
Proof.
  intros Hn Hlen.
  pose proof (build_matrix_shape rows cols) as HS.
  rewrite (gaussian_elimination_gf2_unfold (rows * cols) (rows * cols)) by done.
  destruct (back_substitution_is_Some _ _ _ b HS Hlen (build_matrix_bits _ _)) as [x ->].
  by exists x.
Qed.

(** C6, as the code has it.  [solve_lights_out] has no validation step and
    no error of its own: it raises [IndexError] exactly on a board with no
    row, with an empty first row or with a row shorter than the first, and
    on every other board whose cells fit a machine integer, whatever their
    values and however long the later rows, it returns a grid. *)
Theorem solve_lights_out_outcomes board :
  (solve_lights_out board = Raises IndexError <-> index_defect board = true)
  /\ (index_defect board = false ->
      forallb (forallb fits_int64) board = true ->
      exists grid, solve_lights_out board = Returns (Some grid)).
Proof.
  unfold solve_lights_out, index_defect.
  destruct board as [|row0 rest]; [by split|].
  set (board := row0 :: rest).
  destruct (Nat.eqb_spec (length row0) 0) as [Hz|Hnz]; cbn [orb].
  - rewrite Hz, build_matrix_no_columns. unfold flatten_board.
    rewrite cells_no_columns. simpl. by split.
  - pose proof (flatten_board_None board (length row0)) as Hnone.
    destruct (flatten_board board (length board) (length row0)) as [b|] eqn:Hb.
    + assert (existsb (fun r => length r <? length row0) board = false) as ->.
      { apply not_true_is_false. intros H. by apply Hnone in H. }
      pose proof (flatten_board_length _ _ _ _ Hb) as Hlen.
      destruct (gaussian_elimination_gf2_build (length board) (length row0) b)
        as [x ->]; [simpl; lia|done|].
      split.
      * by destruct (forallb fits_int64 b).
      * intros _ Hfits. rewrite (flatten_board_fits _ _ _ _ Hfits Hb). by eexists.
    + assert (existsb (fun r => length r <? length row0) board = true) as ->
        by (by apply Hnone).
      by split.
Qed.

Lemma solve_lights_out_outcomes_witness :
  exists grid, solve_lights_out [[1; 7]; [0; 1; 1]]%Z = Returns (Some grid).
Proof.
  apply (solve_lights_out_outcomes [[1; 7]; [0; 1; 1]]%Z); reflexivity.
Defined.

(** C6 (the claim fails).  The board [[2]] has a cell outside {0, 1}, and
    [solve_lights_out] returns the grid [[2]] for it. *)
Lemma malformed_board_accepted :
  malformed [[2]]%Z = true /\ solve_lights_out [[2]]%Z = Returns (Some [[2]]%Z).
Proof. split; vm_compute; reflexivity. Qed.

(** ** Calls in the store *)

Lemma fresh_lookup (h : gmap positive object) : h !! fresh (dom h) = None.
Proof. apply not_elem_of_dom, is_fresh. Qed.

Lemma frame_alloc (h0 h : gmap positive object) o :
  h0 ⊆ h -> h0 ⊆ <[fresh (dom h) := o]> h /\ h0 !! fresh (dom h) = None.
Proof.
  intros Hsub.
  assert (h0 !! fresh (dom h) = None) as Hnone.
  { destruct (h0 !! fresh (dom h)) as [o'|] eqn:E; [|done].
    pose proof (lookup_weaken _ _ _ _ E Hsub) as E'. by rewrite fresh_lookup in E'. }
  split; [|done]. by apply insert_subseteq_r.
Qed.

Lemma frame_store (h0 h : gmap positive object) l o :
  h0 ⊆ h -> h0 !! l = None -> h0 ⊆ <[l := o]> h.
Proof. intros Hsub Hnone. by apply insert_subseteq_r. Qed.

(** The solver on references computes what [gaussian_elimination_gf2]
    computes on the contents, in new arrays: the objects of the initial
    store, [A] and [b] among them, are unchanged. *)
Lemma gaussian_elimination_gf2_st_spec (h0 h : gmap positive object) A_ref b_ref A b :
  h0 ⊆ h -> h !! A_ref = Some (Array2 A) -> h !! b_ref = Some (Array1 b) ->
  h0 ⊆ (gaussian_elimination_gf2_st A_ref b_ref h).2
  /\ match gaussian_elimination_gf2 A b with
     | Raises e => (gaussian_elimination_gf2_st A_ref b_ref h).1 = Raises e
     | Returns None => (gaussian_elimination_gf2_st A_ref b_ref h).1 = Returns None
     | Returns (Some x) =>
         exists x_ref,
           (gaussian_elimination_gf2_st A_ref b_ref h).1 = Returns (Some x_ref)
           /\ (gaussian_elimination_gf2_st A_ref b_ref h).2 !! x_ref = Some (Array1 x)
     end.
Proof.
  intros Hsub HA Hb.
  unfold gaussian_elimination_gf2_st, gaussian_elimination_gf2, bind, load.
  rewrite HA, Hb. destruct A as [|row0 A']; [done|].
  destruct (length (row0 :: A') =? length b); [|done].
  unfold alloc at 1. cbn iota beta zeta.
  destruct (forward_elimination _ _ _) as [aug pivot_row].
  unfold bind, store, alloc. cbn iota beta zeta.
  set (h1 := <[fresh (dom h) := Array2 (column_stack (row0 :: A') b)]> h).
  set (h2 := <[fresh (dom h) := Array2 aug]> h1).
  destruct (frame_alloc h0 h (Array2 (column_stack (row0 :: A') b)) Hsub) as [Hsub1 Hn1].
  fold h1 in Hsub1.
  assert (h0 ⊆ h2) as Hsub2 by (by apply frame_store).
  set (h3 := <[fresh (dom h2) := Array1 (zeros (length row0))]> h2).
  destruct (frame_alloc h0 h2 (Array1 (zeros (length row0))) Hsub2) as [Hsub3 Hn3].
  fold h3 in Hsub3.
  destruct (back_substitution _ _ aug pivot_row) as [x|]; simpl.
  - split; [by apply frame_store|].
    exists (fresh (dom h2)). split; [done|]. apply lookup_insert_eq.
  - done.
Qed.

Lemma read_ints_fmap row : read_ints (VInt <$> row) = Some row.
Proof. unfold read_ints. by apply mapM_fmap_Some. Qed.

Lemma read_grid_rows (h : gmap positive object) l refs rows :
  h !! l = Some (PyList (VRef <$> refs)) ->
  Forall2 (fun r row => h !! r = Some (PyList (VInt <$> row))) refs rows ->
  read_grid h l = Some rows.
Proof.
  intros Hl Hrows. unfold read_grid. rewrite Hl.
  apply mapM_Some_2, Forall2_fmap_l.
  eapply Forall2_impl; [exact Hrows|].
  intros r row Hr. simpl. rewrite Hr. apply read_ints_fmap.
Qed.

(** The loop of lines 54-58: the rows are appended to [solution], and only
    new objects are written. *)
Lemma append_rows_spec (h0 h : gmap positive object) solution_ref refs built todo :
  h0 ⊆ h -> h0 !! solution_ref = None ->
  h !! solution_ref = Some (PyList (VRef <$> refs)) -> solution_ref ∉ refs ->
  Forall2 (fun r row => h !! r = Some (PyList (VInt <$> row))) refs built ->
  (for_each todo (append_row solution_ref) h).1 = Returns tt
  /\ h0 ⊆ (for_each todo (append_row solution_ref) h).2
  /\ read_grid (for_each todo (append_row solution_ref) h).2 solution_ref
     = Some (built ++ todo).
Proof.
  revert h refs built.
  induction todo as [|row todo IH]; intros h refs built Hsub Hnone Hsol Hnotin Hrows.
  - simpl. rewrite app_nil_r. split; [done|]. split; [done|].
    by eapply read_grid_rows.
  - set (l := fresh (dom h)).
    assert (h !! l = None) as Hl by apply fresh_lookup.
    assert (l <> solution_ref) as Hne by congruence.
    set (h3 := <[solution_ref := PyList ((VRef <$> refs) ++ [VRef l])]>
                 (<[l := PyList (VInt <$> row)]> (<[l := PyList []]> h))).
    assert (append_row solution_ref row h = (Returns tt, h3)) as Hrow.
    { unfold append_row, bind, alloc, store, append. cbn iota beta zeta. fold l.
      by rewrite lookup_insert_ne, lookup_insert_ne, Hsol. }
    cbn [for_each]. unfold bind. rewrite Hrow.
    destruct (frame_alloc h0 h (PyList []) Hsub) as [Hsub1 Hn1]. fold l in Hsub1, Hn1.
    assert (h0 ⊆ h3) as Hsub3.
    { apply frame_store; [|done]. by apply frame_store. }
    replace (built ++ row :: todo) with ((built ++ [row]) ++ todo)
      by (by rewrite <- app_assoc).
    apply (IH h3 (refs ++ [l])); try done.
    + unfold h3. by rewrite lookup_insert_eq, fmap_app.
    + rewrite elem_of_app, list_elem_of_singleton. intros [?|?]; [done|congruence].
    + apply Forall2_app.
      * apply Forall2_same_length_lookup_2; [by eapply Forall2_length|].
        intros i r row' Hi Hi'.
        pose proof (Forall2_lookup_lr _ _ _ _ _ _ Hrows Hi Hi') as Hr.
        assert (r ∈ refs) as Hin by (by eapply list_elem_of_lookup_2).
        assert (solution_ref <> r) as Hr1 by (by intros ->).
        assert (l <> r) as Hr2 by congruence.
        unfold h3. by rewrite !lookup_insert_ne.
      * constructor; [|constructor].
        unfold h3. rewrite lookup_insert_ne by done. apply lookup_insert_eq.
Qed.

(** [solve_lights_out] on a reference returns what [solve_lights_out]
    computes from the contents of the board, and leaves every object of the
    initial store as it was. *)
Lemma solve_lights_out_st_spec (h : gmap positive object) board_ref board :
  read_grid h board_ref = Some board ->
  h ⊆ (solve_lights_out_st board_ref h).2
  /\ observe (solve_lights_out_st board_ref h) = Some (solve_lights_out board).
Proof.
  intros Hread.
  destruct (solve_lights_out_st board_ref h) as [res h'] eqn:E. cbn [fst snd].
  unfold solve_lights_out. unfold solve_lights_out_st in E.
  unfold bind at 1 in E. unfold load_grid in E. rewrite Hread in E.
  unfold raise, ret in E.
  destruct board as [|row0 rest]; [by injection E as <- <-|].
  set (rows := length (row0 :: rest)) in *. set (cols := length row0) in *.
  unfold bind at 1 in E. unfold alloc at 1 in E. cbn iota beta zeta in E.
  unfold bind at 1 in E. unfold store at 1 in E. cbn iota beta zeta in E.
  set (A_ref := fresh (dom h)) in *.
  set (h2 := <[A_ref := Array2 (build_matrix rows cols)]>
               (<[A_ref := Array2 (zeros2 (rows * cols) (rows * cols))]> h)) in *.
  destruct (frame_alloc h h (Array2 (zeros2 (rows * cols) (rows * cols))))
    as [Hsub1 Hn1]; [done|]. fold A_ref in Hsub1, Hn1.
  assert (h ⊆ h2) as Hsub2 by (by apply frame_store).
  destruct (flatten_board (row0 :: rest) rows cols) as [b|];
    [|by injection E as <- <-].
  destruct (forallb fits_int64 b); [|by injection E as <- <-].
  unfold bind at 1 in E. unfold alloc at 1 in E. cbn iota beta zeta in E.
  set (b_ref := fresh (dom h2)) in *. set (h3 := <[b_ref := Array1 b]> h2) in *.
  destruct (frame_alloc h h2 (Array1 b) Hsub2) as [Hsub3 Hn3]. fold b_ref h3 in Hsub3, Hn3.
  assert (h3 !! A_ref = Some (Array2 (build_matrix rows cols))) as HA.
  { unfold h3, h2. rewrite lookup_insert_ne; [apply lookup_insert_eq|].
    intros Heq. pose proof (fresh_lookup h2) as Hf. fold b_ref in Hf.
    rewrite Heq in Hf. unfold h2 in Hf. by rewrite lookup_insert_eq in Hf. }
  assert (h3 !! b_ref = Some (Array1 b)) as Hb by apply lookup_insert_eq.
  destruct (gaussian_elimination_gf2_st_spec h h3 A_ref b_ref _ b Hsub3 HA Hb)
    as [Hsub4 Hres].
  unfold bind at 1 in E.
  destruct (gaussian_elimination_gf2_st A_ref b_ref h3) as [o h4]. simpl in Hsub4, Hres.
  destruct (gaussian_elimination_gf2 (build_matrix rows cols) b) as [e|[x|]].
  - subst o. by injection E as <- <-.
  - destruct Hres as (x_ref & -> & Hx).
    unfold bind at 1 in E. unfold load in E. rewrite Hx in E.
    unfold bind at 1 in E. unfold alloc at 1 in E. cbn iota beta zeta in E.
    set (solution_ref := fresh (dom h4)) in *.
    set (h5 := <[solution_ref := PyList []]> h4) in *.
    destruct (frame_alloc h h4 (PyList []) Hsub4) as [Hsub5 Hn5].
    fold solution_ref h5 in Hsub5, Hn5.
    destruct (append_rows_spec h h5 solution_ref [] [] (to_grid rows cols x))
      as (Hret & Hsub6 & Hgrid); try done.
    { apply lookup_insert_eq. }
    { apply not_elem_of_nil. }
    unfold bind in E.
    destruct (for_each (to_grid rows cols x) (append_row solution_ref) h5) as [o6 h6].
    simpl in Hret, Hsub6, Hgrid. subst o6. injection E as <- <-. split; [done|].
    unfold observe. simpl. by rewrite Hgrid.
  - subst o. by injection E as <- <-.
Qed.

Lemma solve_lights_out_st_frame (h : gmap positive object) board_ref :
  h ⊆ (solve_lights_out_st board_ref h).2.
Proof.
  destruct (read_grid h board_ref) as [board|] eqn:Hread.
  - by apply (solve_lights_out_st_spec h board_ref board).
  - unfold solve_lights_out_st, bind, load_grid. by rewrite Hread.
Qed.

Lemma read_row_weaken (h h' : gmap positive object) v row :
  h ⊆ h' -> read_row h v = Some row -> read_row h' v = Some row.
Proof.
  intros Hsub. destruct v as [z|l]; [done|]. simpl.
  destruct (h !! l) as [o|] eqn:E; [|done].
  by rewrite (lookup_weaken _ _ _ _ E Hsub).
Qed.

Lemma read_grid_weaken (h h' : gmap positive object) l g :
  h ⊆ h' -> read_grid h l = Some g -> read_grid h' l = Some g.
Proof.
  intros Hsub. unfold read_grid.
  destruct (h !! l) as [o|] eqn:E; [|done].
  rewrite (lookup_weaken _ _ _ _ E Hsub).
  destruct o as [items| |]; try done.
  intros H%mapM_Some. apply mapM_Some.
  eapply Forall2_impl; [exact H|]. intros v row. by apply read_row_weaken.
Qed.

Lemma gaussian_elimination_gf2_st_frame (h : gmap positive object) A_ref b_ref :
  h ⊆ (gaussian_elimination_gf2_st A_ref b_ref h).2.
Proof.
  destruct (h !! A_ref) as [oA|] eqn:HA; [destruct (h !! b_ref) as [ob|] eqn:Hb|].
  - destruct oA as [items|data|A]; [| |destruct ob as [items|b|data]];
      try (unfold gaussian_elimination_gf2_st, bind, load; by rewrite HA, Hb).
    by apply (gaussian_elimination_gf2_st_spec h h A_ref b_ref A b).
  - unfold gaussian_elimination_gf2_st, bind, load. by rewrite HA, Hb.
  - unfold gaussian_elimination_gf2_st, bind, load. by rewrite HA.
Qed.

(** C9.  A call of [solve_lights_out] on a reference to the board leaves
    every object that the store held before the call as it was ([h] is
    included in the final store, whether the call returns a grid, returns
    [None] or raises), so the board reads back with the same values; the
    call of the solver likewise leaves [A] and [b] untouched and writes
    only to the arrays [aug] and [x] that it allocates. *)
Theorem board_not_mutated (h : gmap positive object) board_ref :
  h ⊆ (solve_lights_out_st board_ref h).2
  /\ read_grid (solve_lights_out_st board_ref h).2 board_ref = read_grid h board_ref
  /\ forall A_ref b_ref, h ⊆ (gaussian_elimination_gf2_st A_ref b_ref h).2.
Proof.
  pose proof (solve_lights_out_st_frame h board_ref) as Hsub.
  split; [done|]. split; [|apply gaussian_elimination_gf2_st_frame].
  destruct (read_grid h board_ref) as [board|] eqn:Hread.
  - by apply (read_grid_weaken h).
  - unfold solve_lights_out_st, bind, load_grid. by rewrite Hread.
Qed.

(** C8.  Two calls of [solve_lights_out] on boards with the same contents,
    in whatever stores and at whatever addresses, have the same result: the
    same exception, [None] both times, or grids with the same contents,
    namely the value of the function [solve_lights_out] on the board. *)
Theorem solve_lights_out_deterministic (h1 h2 : gmap positive object) ref1 ref2 board :
  read_grid h1 ref1 = Some board -> read_grid h2 ref2 = Some board ->
  observe (solve_lights_out_st ref1 h1) = observe (solve_lights_out_st ref2 h2)
  /\ observe (solve_lights_out_st ref1 h1) = Some (solve_lights_out board).
Proof.
  intros H1 H2.
  destruct (solve_lights_out_st_spec h1 ref1 board H1) as [_ ->].
  by destruct (solve_lights_out_st_spec h2 ref2 board H2) as [_ ->].
Qed.

Lemma solve_lights_out_deterministic_witness :
  observe (solve_lights_out_st 1%positive
             (<[1%positive := PyList [VRef 2%positive]]>
                (<[2%positive := PyList [VInt 1; VInt 0]]> ∅)))
  = observe (solve_lights_out_st 7%positive
               (<[7%positive := PyList [VRef 3%positive]]>
                  (<[3%positive := PyList [VInt 1; VInt 0]]>
                     (<[1%positive := Array1 [5%Z]]> ∅)))).
Proof.
  refine (proj1 (solve_lights_out_deterministic
                   (<[1%positive := PyList [VRef 2%positive]]>
                      (<[2%positive := PyList [VInt 1; VInt 0]]> ∅))
                   (<[7%positive := PyList [VRef 3%positive]]>
                      (<[3%positive := PyList [VInt 1; VInt 0]]>
                         (<[1%positive := Array1 [5%Z]]> ∅)))
                   1%positive 7%positive [[1; 0]]%Z _ _)); reflexivity.
Defined.

(** * Further properties *)

(** ** Sums and parities *)

Lemma mod2_eq_odd (a b : Z) : (a `mod` 2 = b `mod` 2)%Z <-> Z.odd a = Z.odd b.
Proof. rewrite !Zmod_odd. by destruct (Z.odd a), (Z.odd b). Qed.

Lemma odd_mod2 (a : Z) : Z.odd (a `mod` 2) = Z.odd a.
Proof. rewrite Zmod_odd. by destruct (Z.odd a). Qed.

Lemma sumZ_ext (f g : nat -> Z) l :
  (forall c, c ∈ l -> f c = g c) -> sumZ f l = sumZ g l.
Proof.
  induction l as [|c l IH]; intros H; simpl; [done|].
  rewrite (H c) by (by left). rewrite IH; [done|]. intros c' Hc'. apply H. by right.
Qed.

Lemma sumZ_zero (f : nat -> Z) l : (forall c, c ∈ l -> f c = 0%Z) -> sumZ f l = 0%Z.
Proof.
  induction l as [|c l IH]; intros H; simpl; [done|].
  rewrite (H c) by (by left). rewrite IH; [done|]. intros c' Hc'. apply H. by right.
Qed.

Lemma sumZ_single (f : nat -> Z) l c :
  NoDup l -> c ∈ l -> (forall c', c' ∈ l -> c' <> c -> f c' = 0%Z) -> sumZ f l = f c.
Proof.
  induction l as [|a l IH]; intros Hnd Hin Hz; [by apply elem_of_nil in Hin|].
  apply NoDup_cons in Hnd as [Hnotin Hnd]. simpl.
  destruct (decide (a = c)) as [->|Hne].
  - rewrite sumZ_zero; [lia|]. intros c' Hc' . apply Hz; [by right|]. by intros ->.
  - rewrite (Hz a) by (done || by left).
    apply elem_of_cons in Hin as [->|Hin]; [done|].
    rewrite IH; [lia|done|done|]. intros c' Hc'. apply Hz. by right.
Qed.

Lemma sumZ_map (f : nat -> Z) {T : Type} (g : T -> nat) (l : list T) :
  sumZ f (map g l) = foldr (fun a acc => (f (g a) + acc)%Z) 0%Z l.
Proof. induction l as [|a l IH]; simpl; [done|]. by rewrite IH. Qed.

(** The parity of a sum is the parity of the number of its odd terms. *)
Lemma odd_sumZ (f : nat -> Z) l :
  Z.odd (sumZ f l) = odd_count (fun c => Z.odd (f c)) l.
Proof. induction l as [|c l IH]; simpl; [done|]. by rewrite Z.odd_add, IH. Qed.

Lemma odd_count_ext {T : Type} (p q : T -> bool) l :
  (forall a, a ∈ l -> p a = q a) -> odd_count p l = odd_count q l.
Proof.
  induction l as [|a l IH]; intros H; simpl; [done|].
  rewrite (H a) by (by left). rewrite IH; [done|]. intros a' Ha'. apply H. by right.
Qed.

Lemma odd_count_xor {T : Type} (p q : T -> bool) l :
  odd_count (fun a => xorb (p a) (q a)) l = xorb (odd_count p l) (odd_count q l).
Proof.
  induction l as [|a l IH]; simpl; [done|]. rewrite IH.
  by destruct (p a), (q a), (odd_count p l), (odd_count q l).
Qed.

Lemma odd_count_map {T U : Type} (p : U -> bool) (g : T -> U) l :
  odd_count p (map g l) = odd_count (fun a => p (g a)) l.
Proof. induction l as [|a l IH]; simpl; [done|]. by rewrite IH. Qed.

Lemma odd_dot m r x :
  Z.odd (dot m r x) = odd_count (fun c => Z.odd (get r c) && Z.odd (get x c)) (seq 0 m).
Proof.
  unfold dot. rewrite odd_sumZ. apply odd_count_ext. intros c _. apply Z.odd_mul.
Qed.

Lemma satisfies_odd m r x :
  satisfies m r x
  <-> odd_count (fun c => Z.odd (get r c) && Z.odd (get x c)) (seq 0 m) = Z.odd (get r m).
Proof. unfold satisfies. by rewrite mod2_eq_odd, odd_dot. Qed.

(** ** The forward elimination keeps the solutions *)

Lemma satisfies_defect m r x : satisfies m r x <-> defect m r x = false.
Proof.
  rewrite satisfies_odd. unfold defect.
  by destruct (odd_count _ _), (Z.odd (get r m)).
Qed.

Lemma defect_ext m r r' x :
  (forall c, c <= m -> get r' c = get r c) -> defect m r' x = defect m r x.
Proof.
  intros H. unfold defect. rewrite (H m) by lia. f_equal.
  apply odd_count_ext. intros c Hc%list_elem_of_In%in_seq. rewrite H by lia. done.
Qed.

Lemma defect_add m r q r' x :
  (forall c, c <= m -> get r' c = ((get r c + get q c) `mod` 2)%Z) ->
  defect m r' x = xorb (defect m r x) (defect m q x).
Proof.
  intros H. unfold defect. rewrite (H m) by lia.
  rewrite odd_mod2, Z.odd_add.
  rewrite (odd_count_ext _ (fun c => xorb (Z.odd (get r c) && Z.odd (get x c))
                                        (Z.odd (get q c) && Z.odd (get x c)))).
  - rewrite odd_count_xor.
    by destruct (odd_count _ _), (odd_count _ _), (Z.odd (get r m)), (Z.odd (get q m)).
  - intros c Hc%list_elem_of_In%in_seq. rewrite H by lia.
    rewrite odd_mod2, Z.odd_add.
    by destruct (Z.odd (get r c)), (Z.odd (get q c)), (Z.odd (get x c)).
Qed.

Lemma swapped_involutive pr row i : swapped pr row (swapped pr row i) = i.
Proof. unfold swapped. repeat case_decide; congruence. Qed.

(** One pivot step (swap, then elimination) turns the equations into
    equations with the same solutions. *)
Lemma pivot_step_solves n w m aug pr row col x :
  shape n w aug -> pr < n -> row < n ->
  solves m (eliminate n pr col (swap_rows aug pr row)) x <-> solves m aug x.
Proof.
  intros HS Hpr Hrow.
  set (aug' := eliminate n pr col (swap_rows aug pr row)).
  assert (forall i,
            defect m (row_of aug' i) x
            = if negb (i =? pr) && (entry aug (swapped pr row i) col =? 1)%Z
              then xorb (defect m (row_of aug (swapped pr row i)) x)
                        (defect m (row_of aug row) x)
              else defect m (row_of aug (swapped pr row i)) x) as Hdef.
  { intros i.
    destruct (negb (i =? pr) && (entry aug (swapped pr row i) col =? 1)%Z) eqn:E.
    - apply defect_add. intros c _.
      change (entry aug' i c
              = ((entry aug (swapped pr row i) c + entry aug row c) `mod` 2)%Z).
      unfold aug'. by rewrite (pivot_step_entry n w), E.
    - apply defect_ext. intros c _.
      change (entry aug' i c = entry aug (swapped pr row i) c).
      unfold aug'. by rewrite (pivot_step_entry n w), E. }
  assert (swapped pr row pr = row) as Hsw.
  { unfold swapped. repeat case_decide; congruence. }
  unfold solves. setoid_rewrite satisfies_defect. split.
  - intros H'.
    assert (defect m (row_of aug row) x = false) as Hrow0.
    { specialize (H' pr). rewrite Hdef, Nat.eqb_refl, Hsw in H'. done. }
    intros j. specialize (H' (swapped pr row j)).
    rewrite Hdef, swapped_involutive, Hrow0 in H'.
    destruct (negb _ && _); [|done]. by rewrite xorb_false_r in H'.
  - intros H i. rewrite Hdef, !H. by destruct (negb _ && _).
Qed.

Lemma elimination_step_solves n w m aug pr col x :
  shape n w aug -> pr <= n ->
  solves m (elimination_step n (aug, pr) col).1 x <-> solves m aug x.
Proof.
  intros HS Hpr. unfold elimination_step.
  destruct (find_pivot aug col (seq pr (n - pr))) as [row|] eqn:E; simpl; [|done].
  apply find_pivot_range in E as [Hrow _].
  apply (pivot_step_solves n w); (done || lia).
Qed.

Lemma elimination_fold_solves n w m cols aug pr x :
  shape n w aug -> pr <= n ->
  solves m (fold_left (elimination_step n) cols (aug, pr)).1 x <-> solves m aug x.
Proof.
  revert aug pr. induction cols as [|col cols IH]; intros aug pr HS Hpr; [done|].
  cbn [fold_left].
  pose proof (elimination_step_solves n w m aug pr col x HS Hpr) as Hstep.
  destruct (elimination_step_column (fun _ => True) (fun _ _ _ _ => I) n w aug pr col 0 HS Hpr)
    as (HS' & Hpr' & _); [done|].
  destruct (elimination_step n (aug, pr) col) as [aug' pr']. simpl in *.
  by rewrite IH.
Qed.

Lemma solves_column_stack n m A b x :
  shape n m A -> length b = n ->
  solves m (column_stack A b) x <-> solves_system m A b x.
Proof.
  intros HS Hb. unfold solves, solves_system, satisfies. split.
  - intros H i Hi. specialize (H i).
    rewrite (row_of_column_stack n m) in H by (done || lia).
    pose proof (shape_row n m A i HS ltac:(lia)) as Hlen.
    assert (get (row_of A i ++ [get b i]) m = get b i) as Ht.
    { rewrite <- Hlen. apply get_snoc. }
    rewrite Ht in H. rewrite <- H. f_equal. unfold dot. apply sumZ_ext.
    intros c Hc%list_elem_of_In%in_seq. rewrite get_app_l by lia. done.
  - intros H i. destruct (decide (i < n)) as [Hi|Hi].
    + rewrite (row_of_column_stack n m) by done.
      pose proof (shape_row n m A i HS Hi) as Hlen.
      assert (get (row_of A i ++ [get b i]) m = get b i) as Ht.
      { rewrite <- Hlen. apply get_snoc. }
      rewrite Ht, <- H by lia. f_equal. unfold dot. apply sumZ_ext.
      intros c Hc%list_elem_of_In%in_seq. rewrite get_app_l by lia. done.
    + rewrite row_of_ge.
      * unfold dot. rewrite sumZ_zero; [done|]. intros c _.
        rewrite (get_ge []); [lia|simpl; lia].
      * destruct (column_stack_shape n m A b HS Hb) as [-> _]. lia.
Qed.

(** The equations left by the forward elimination have the solutions of
    [A x = b], and no others. *)
Lemma forward_elimination_solves n m A b x :
  shape n m A -> length b = n ->
  solves m (forward_elimination n m (column_stack A b)).1 x <-> solves_system m A b x.
Proof.
  intros HS Hb. rewrite <- (solves_column_stack n m) by done.
  apply (elimination_fold_solves n (m + 1)); [by apply column_stack_shape|lia].
Qed.

(** ** The vector returned by the solver *)

(** After the back-substitution over a reduced matrix, [x] is zero on the
    free columns and carries, at each pivot column, the target bit of the
    pivot row. *)
Lemma back_substitution_pivots n m aug pr pcs x :
  reduced n m m aug pr pcs -> back_substitution n m aug pr = Some x ->
  length x = m
  /\ (forall col, col ∉ pcs -> get x col = 0%Z)
  /\ (forall k c, pcs !! k = Some c ->
        (get x c `mod` 2 = entry aug k m `mod` 2)%Z).
Proof.
  intros Hred Hx.
  destruct (substitution_fold_pivots n m aug pr pcs (substitution_range n pr)
              (zeros m) x Hred) as (Hlen & Hfree & Hpiv & _); try done.
  { by apply Forall_forall. }
  { unfold substitution_range. apply NoDup_ListNoDup, NoDup_rev, NoDup_ListNoDup, NoDup_seq. }
  { apply length_replicate. }
  { intros col _. apply get_zeros. }
  split; [done|]. split; [done|].
  intros k c Hk. apply (Hpiv k c Hk). apply elem_of_substitution_range.
  pose proof (red_rows _ _ _ _ _ _ Hred). pose proof (red_count _ _ _ _ _ _ Hred).
  apply lookup_lt_Some in Hk. lia.
Qed.

Lemma reduced_zero_row n m aug pr pcs i y :
  reduced n m m aug pr pcs -> pr <= i ->
  satisfies m (row_of aug i) y <-> (entry aug i m `mod` 2 = 0)%Z.
Proof.
  intros Hred Hi. unfold satisfies, dot.
  rewrite sumZ_zero.
  - unfold entry. split; intros H; [by rewrite <- H|by rewrite H].
  - intros c Hc%list_elem_of_In%in_seq.
    fold (entry aug i c). rewrite (red_below _ _ _ _ _ _ Hred i c) by lia. lia.
Qed.

Lemma reduced_pivot_row n m aug pr pcs k c x :
  reduced n m m aug pr pcs -> pcs !! k = Some c ->
  (forall col, col ∉ pcs -> get x col = 0%Z) ->
  (get x c `mod` 2 = entry aug k m `mod` 2)%Z ->
  satisfies m (row_of aug k) x.
Proof.
  intros Hred Hk Hfree Hx. unfold satisfies, dot.
  rewrite (sumZ_single _ _ c).
  - fold (entry aug k c). rewrite (red_unit _ _ _ _ _ _ Hred k c k Hk).
    rewrite decide_True by done. by rewrite Z.mul_1_l.
  - apply NoDup_seq.
  - apply list_elem_of_In, in_seq. pose proof (red_before _ _ _ _ _ _ Hred k c Hk). lia.
  - intros c' _ Hne. fold (entry aug k c').
    by apply (reduced_row_terms n m aug pr pcs x k c).
Qed.

(** The returned vector solves the reduced equations exactly when the rows
    from [pivot_row] on, whose coefficients are all zero, have a zero
    target. *)
Lemma reduced_solves n m aug pr pcs x :
  reduced n m m aug pr pcs -> back_substitution n m aug pr = Some x ->
  solves m aug x <-> forall i, pr <= i -> (entry aug i m `mod` 2 = 0)%Z.
Proof.
  intros Hred Hx.
  destruct (back_substitution_pivots n m aug pr pcs x Hred Hx) as (Hlen & Hfree & Hpiv).
  split.
  - intros H i Hi. by apply (reduced_zero_row n m aug pr pcs i x Hred Hi).
  - intros H i. destruct (decide (i < pr)) as [Hlt|Hge].
    + destruct (lookup_lt_is_Some_2 pcs i) as [c Hc].
      { by rewrite (red_count _ _ _ _ _ _ Hred). }
      apply (reduced_pivot_row n m aug pr pcs i c); auto.
    + apply (reduced_zero_row n m aug pr pcs i x Hred); [lia|]. apply H. lia.
Qed.

(** X3.  For a matrix of bits, the vector that [gaussian_elimination_gf2]
    returns solves [A x = b] over GF(2) exactly when the rows left below the
    pivots have target 0 modulo 2, and so it solves the system whenever the
    system has any solution. *)
Theorem gaussian_elimination_gf2_solves n m A b x :
  shape n m A -> length b = n -> bit_matrix A = true ->
  gaussian_elimination_gf2 A b = Returns (Some x) ->
  let aug := (forward_elimination n m (column_stack A b)).1 in
  let pivot_row := (forward_elimination n m (column_stack A b)).2 in
  (solves_system m A b x
   <-> forall i, pivot_row <= i -> (entry aug i m `mod` 2 = 0)%Z)
  /\ ((exists y, solves_system m A b y) -> solves_system m A b x).
Proof.
  intros HS Hb Hbits Hret aug pivot_row.
  pose proof (gaussian_elimination_gf2_Returns _ _ _ Hret) as [Hn _].
  rewrite (gaussian_elimination_gf2_unfold n m) in Hret by (done || lia).
  injection Hret as Hret. fold aug pivot_row in Hret.
  pose proof (forward_elimination_reduced n m A b HS Hb
                (fun i c => bit_matrix_entry A i c Hbits)) as Hred.
  fold aug pivot_row in Hred.
  pose proof (reduced_solves n m aug pivot_row _ x Hred Hret) as Hsol.
  assert (forall y, solves m aug y <-> solves_system m A b y) as Hfwd.
  { intros y. by apply forward_elimination_solves. }
  split.
  - by rewrite <- Hfwd.
  - intros [y Hy]. apply Hfwd, Hsol. intros i Hi.
    apply (reduced_zero_row n m aug pivot_row _ i y Hred Hi). by apply Hfwd.
Qed.

Lemma gaussian_elimination_gf2_solves_witness :
  solves_system 2 [[1; 1]; [1; 0]]%Z [1; 1]%Z [1; 0]%Z.
Proof.
  apply (gaussian_elimination_gf2_solves 2 2 [[1; 1]; [1; 0]]%Z [1; 1]%Z [1; 0]%Z).
  - split; [reflexivity|]. repeat constructor.
  - reflexivity.
  - reflexivity.
  - reflexivity.
  - exists [1; 0]%Z. intros i Hi. simpl in Hi.
    destruct i as [|[|i]]; [reflexivity|reflexivity|lia].
Defined.

(** ** Replaying a grid of presses *)

Lemma flip_if_xorb t1 t2 v : flip_if t1 (flip_if t2 v) = flip_if (xorb t1 t2) v.
Proof. destruct t1, t2; simpl; lia. Qed.

Lemma toggle_shape n w R a c : shape n w R -> shape n w (toggle R a c).
Proof.
  intros [Hn Hw]. unfold toggle. split.
  - by rewrite length_alter.
  - apply Forall_alter; [done|]. intros r Hr. by rewrite length_insert.
Qed.

Lemma toggle_entry n w R a c i j :
  shape n w R -> a < n -> c < w ->
  entry (toggle R a c) i j
  = flip_if (bool_decide ((a, c) = (i, j))) (entry R i j).
Proof.
  intros HS Ha Hc. unfold entry, row_of, toggle.
  destruct (decide (i = a)) as [->|Hne].
  - rewrite list_lookup_alter_eq.
    pose proof (shape_row n w R a HS Ha) as Hlen. unfold row_of in Hlen.
    destruct (R !! a) as [r|] eqn:E; simpl in *.
    + rewrite get_insert by lia. case_decide as Hj.
      * subst. by rewrite bool_decide_eq_true_2.
      * rewrite bool_decide_eq_false_2; [done|]. intros [= ->]. done.
    + apply lookup_ge_None_1 in E. destruct HS. lia.
  - rewrite list_lookup_alter_ne by done.
    rewrite bool_decide_eq_false_2; [done|]. intros [= ->]. done.
Qed.

Lemma toggles_entry n w ts R i j :
  shape n w R -> Forall (fun t : nat * nat => t.1 < n /\ t.2 < w) ts ->
  let R' := fold_left (fun R (t : nat * nat) => toggle R t.1 t.2) ts R in
  shape n w R'
  /\ entry R' i j = flip_if (odd_count (fun t => bool_decide (t = (i, j))) ts) (entry R i j).
Proof.
  intros HS Hts. revert R HS.
  induction Hts as [|[a c] ts [Ha Hc] Hts IH]; intros R HS; simpl; [done|].
  destruct (IH (toggle R a c)) as [HS' HE]; [by apply toggle_shape|].
  split; [done|]. rewrite HE, (toggle_entry n w) by done.
  rewrite flip_if_xorb. f_equal. apply xorb_comm.
Qed.

Lemma odd_count_elem {T : Type} `{EqDecision T} (l : list T) (x : T) :
  NoDup l -> odd_count (fun t => bool_decide (t = x)) l = bool_decide (x ∈ l).
Proof.
  induction l as [|a l IH]; intros Hnd; simpl.
  - done.
  - apply NoDup_cons in Hnd as [Hnotin Hnd]. rewrite IH by done.
    destruct (decide (a = x)) as [->|Hne].
    + rewrite bool_decide_eq_true_2 by done.
      rewrite (bool_decide_eq_false_2 (x ∈ l)) by done.
      rewrite bool_decide_eq_true_2; [done|by left].
    + rewrite (bool_decide_eq_false_2 (a = x)) by done. simpl.
      apply bool_decide_ext. rewrite elem_of_cons.
      split; [by right|intros [?|?]; [congruence|done]].
Qed.

Lemma neighbours_NoDup rows cols a c : NoDup (targets rows cols a c).
Proof.
  unfold targets, neighbours.
  destruct (Nat.ltb_spec 0 a); destruct (Nat.ltb_spec (a + 1) rows);
  destruct (Nat.ltb_spec 0 c); destruct (Nat.ltb_spec (c + 1) cols); simpl;
  repeat (apply NoDup_cons; split;
          [rewrite ?not_elem_of_cons, ?pair_equal_spec;
           repeat split; try apply not_elem_of_nil; lia|]);
  apply NoDup_nil; done.
Qed.

Lemma targets_in_range rows cols a c :
  a < rows -> c < cols ->
  Forall (fun t : nat * nat => t.1 < rows /\ t.2 < cols) (targets rows cols a c).
Proof.
  intros Ha Hc. apply Forall_forall. intros [i j] Hin. simpl.
  unfold targets in Hin. apply elem_of_cons in Hin as [[= -> ->]|Hin]; [done|].
  apply elem_of_neighbours in Hin. lia.
Qed.

(** A press is the toggles of its targets, the button itself and its
    in-bounds neighbours. *)
Lemma apply_press_targets rows cols S R a c :
  a < rows -> c < cols ->
  apply_press rows cols S R (a, c)
  = if (entry S a c =? 1)%Z
    then fold_left (fun R (t : nat * nat) => toggle R t.1 t.2) (targets rows cols a c) R
    else R.
Proof.
  intros Ha Hc. unfold apply_press. destruct (entry S a c =? 1)%Z; [|done].
  unfold targets, neighbours.
  replace (a <? rows - 1) with (a + 1 <? rows)
    by (destruct (Nat.ltb_spec (a + 1) rows), (Nat.ltb_spec a (rows - 1)); (done || lia)).
  replace (c <? cols - 1) with (c + 1 <? cols)
    by (destruct (Nat.ltb_spec (c + 1) cols), (Nat.ltb_spec c (cols - 1)); (done || lia)).
  by destruct (0 <? a), (a + 1 <? rows), (0 <? c), (c + 1 <? cols).
Qed.

Lemma toggled_by_sym rows cols i j a c :
  i < rows -> j < cols -> a < rows -> c < cols ->
  toggled_by rows cols a c i j = toggled_by rows cols i j a c.
Proof.
  intros Hi Hj Ha Hc. unfold toggled_by. apply bool_decide_ext.
  rewrite !elem_of_neighbours, !pair_equal_spec. lia.
Qed.

Lemma apply_press_entry rows cols S R a c i j :
  shape rows cols R -> a < rows -> c < cols ->
  shape rows cols (apply_press rows cols S R (a, c))
  /\ entry (apply_press rows cols S R (a, c)) i j
     = flip_if ((entry S a c =? 1)%Z && toggled_by rows cols a c i j) (entry R i j).
Proof.
  intros HS Ha Hc. rewrite apply_press_targets by done.
  destruct (entry S a c =? 1)%Z; [|done].
  destruct (toggles_entry rows cols (targets rows cols a c) R i j HS) as [HS' HE];
    [by apply targets_in_range|].
  split; [done|]. rewrite HE. cbn [andb]. f_equal.
  rewrite odd_count_elem by apply neighbours_NoDup.
  unfold toggled_by, targets. apply bool_decide_ext. rewrite elem_of_cons.
  split; (intros [H|H]; [left; congruence|by right]).
Qed.

Lemma cells_in_range rows cols :
  Forall (fun t : nat * nat => t.1 < rows /\ t.2 < cols) (cells rows cols).
Proof. apply Forall_forall. intros [a c] Hin. by apply elem_of_cells. Qed.

Lemma replay_fold rows cols S L R i j :
  shape rows cols R -> Forall (fun t : nat * nat => t.1 < rows /\ t.2 < cols) L ->
  shape rows cols (fold_left (apply_press rows cols S) L R)
  /\ entry (fold_left (apply_press rows cols S) L R) i j
     = flip_if (odd_count (fun ac : nat * nat =>
                             (entry S ac.1 ac.2 =? 1)%Z
                             && toggled_by rows cols ac.1 ac.2 i j) L)
               (entry R i j).
Proof.
  intros HS HL. revert R HS.
  induction HL as [|[a c] L [Ha Hc] HL IH]; intros R HS; [done|].
  cbn [fold_left odd_count].
  destruct (apply_press_entry rows cols S R a c i j HS Ha Hc) as [HS1 HE1].
  destruct (IH _ HS1) as [HS2 HE2]. split; [done|].
  rewrite HE2, HE1, flip_if_xorb. f_equal. apply xorb_comm.
Qed.

(** Two arrays of one shape with the same entries are the same array. *)
Lemma shape_ext n w M M' :
  shape n w M -> shape n w M' ->
  (forall i j, i < n -> j < w -> entry M i j = entry M' i j) -> M = M'.
Proof.
  intros HS HS' Hent.
  apply (list_eq_same_length _ _ n); [by destruct HS'|by destruct HS|].
  intros i r r' Hi Hr Hr'.
  pose proof (shape_row n w M i HS Hi) as Hlen. pose proof (shape_row n w M' i HS' Hi) as Hlen'.
  unfold row_of in Hlen, Hlen'. rewrite Hr in Hlen. rewrite Hr' in Hlen'. simpl in *.
  apply (list_eq_same_length _ _ w); [done|done|].
  intros j z z' Hj Hz Hz'. specialize (Hent i j Hi Hj).
  unfold entry, row_of, get in Hent. rewrite Hr, Hr' in Hent. simpl in Hent.
  by rewrite Hz, Hz' in Hent.
Qed.

Lemma replay_entry board S i j :
  shape (length board) (length (row_of board 0)) board ->
  i < length board -> j < length (row_of board 0) ->
  shape (length board) (length (row_of board 0)) (replay board S)
  /\ entry (replay board S) i j
     = flip_if (odd_count (pressed_near (length board) (length (row_of board 0)) S i j)
                          (cells (length board) (length (row_of board 0))))
               (entry board i j).
Proof.
  intros HS Hi Hj. unfold replay.
  destruct (replay_fold _ _ S _ board i j HS (cells_in_range _ _)) as [HS' HE].
  split; [done|]. rewrite HE. f_equal. apply odd_count_ext.
  intros [a c] [Ha Hc]%elem_of_cells. unfold pressed_near. simpl.
  by rewrite toggled_by_sym.
Qed.

Lemma replay_shape board S :
  shape (length board) (length (row_of board 0)) board ->
  shape (length board) (length (row_of board 0)) (replay board S).
Proof.
  intros HS.
  by destruct (replay_fold _ _ S (cells (length board) (length (row_of board 0)))
                 board 0 0 HS (cells_in_range _ _)) as [HS' _].
Qed.

Lemma replay_dims board S :
  shape (length board) (length (row_of board 0)) board ->
  length (replay board S) = length board
  /\ length (row_of (replay board S) 0) = length (row_of board 0).
Proof.
  intros HS. pose proof (replay_shape board S HS) as HS'.
  split; [by destruct HS'|].
  destruct board as [|row0 rest]; [done|].
  apply (shape_row _ _ _ 0 HS'). simpl. lia.
Qed.

(** X1.  On a rectangular board, [verify_solution] returns a grid of the
    shape of the board in which the cell [(i, j)] is the cell of the board,
    replaced by [1 - cell] exactly when the number of buttons pressed in
    [solution] among [(i, j)] and its in-bounds neighbours is odd. *)
Theorem verify_solution_result board solution i j :
  shape (length board) (length (row_of board 0)) board ->
  shape (length board) (length (row_of board 0)) solution ->
  i < length board -> j < length (row_of board 0) ->
  shape (length board) (length (row_of board 0)) (verify_solution board solution).2
  /\ entry (verify_solution board solution).2 i j
     = flip_if (odd_count (pressed_near (length board) (length (row_of board 0))
                                        solution i j)
                          (cells (length board) (length (row_of board 0))))
               (entry board i j).
Proof.
  intros HS _ Hi Hj. unfold verify_solution. cbn [snd]. by apply replay_entry.
Qed.

Lemma verify_solution_result_witness :
  entry (verify_solution [[1; 0]; [0; 0]]%Z [[1; 0]; [0; 0]]%Z).2 1 0 = 1%Z.
Proof.
  apply (verify_solution_result [[1; 0]; [0; 0]]%Z [[1; 0]; [0; 0]]%Z 1 0).
  - split; [reflexivity|]. repeat constructor.
  - split; [reflexivity|]. repeat constructor.
  - simpl. lia.
  - simpl. lia.
Defined.

(** X2.  Pressing the same buttons twice cancels: on a non-empty rectangular
    board, with a solution grid of the same shape, replaying the solution
    against the grid that [verify_solution] returned for it gives back the
    board, whatever integers the cells hold. *)
Theorem verify_solution_twice board solution :
  0 < length board ->
  shape (length board) (length (row_of board 0)) board ->
  shape (length board) (length (row_of board 0)) solution ->
  (verify_solution (verify_solution board solution).2 solution).2 = board.
Proof.
  intros _ HS _. unfold verify_solution. cbn [snd].
  destruct (replay_dims board solution HS) as [Hrows Hcols].
  pose proof (replay_shape board solution HS) as HS1.
  unfold replay at 1. rewrite Hrows, Hcols.
  set (rows := length board) in *. set (cols := length (row_of board 0)) in *.
  apply (shape_ext rows cols); [|done|].
  - by apply (replay_fold rows cols solution _ _ 0 0 HS1), cells_in_range.
  - intros i j Hi Hj.
    destruct (replay_fold rows cols solution (cells rows cols) _ i j HS1
                (cells_in_range _ _)) as [_ ->].
    unfold replay. fold rows cols.
    destruct (replay_fold rows cols solution (cells rows cols) _ i j HS
                (cells_in_range _ _)) as [_ ->].
    rewrite flip_if_xorb, xorb_nilpotent. done.
Qed.

Lemma verify_solution_twice_witness :
  (verify_solution (verify_solution [[1; 0]; [0; 1]]%Z [[1; 1]; [0; 5]]%Z).2
                   [[1; 1]; [0; 5]]%Z).2
  = [[1; 0]; [0; 1]]%Z.
Proof.
  apply (verify_solution_twice [[1; 0]; [0; 1]]%Z [[1; 1]; [0; 5]]%Z);
    [simpl; lia|..]; (split; [reflexivity|]; repeat constructor).
Defined.

(** ** The toggle matrix is the toggle rule *)

Lemma cells_S rows cols :
  cells (S rows) cols = cells rows cols ++ map (fun j => (rows, j)) (seq 0 cols).
Proof.
  unfold cells. rewrite seq_S, flat_map_app. simpl. by rewrite app_nil_r.
Qed.

Lemma cells_flat rows cols :
  map (fun ac : nat * nat => ac.1 * cols + ac.2) (cells rows cols) = seq 0 (rows * cols).
Proof.
  induction rows as [|rows IH]; [done|].
  rewrite cells_S, map_app, IH, map_map. simpl.
  replace (cols + rows * cols) with (rows * cols + cols) by lia.
  rewrite seq_app. f_equal. simpl.
  pose proof (fmap_add_seq (rows * cols) 0 cols) as H.
  by rewrite Nat.add_0_r in H.
Qed.

Lemma cells_lookup rows cols a c :
  a < rows -> c < cols -> cells rows cols !! (a * cols + c) = Some (a, c).
Proof.
  intros Ha Hc. induction rows as [|rows IH]; [lia|].
  rewrite cells_S. destruct (decide (a < rows)) as [Hlt|Hge].
  - rewrite lookup_app_l by (rewrite cells_length; nia). by apply IH.
  - assert (a = rows) as -> by lia.
    rewrite lookup_app_r by (rewrite cells_length; lia).
    rewrite cells_length. replace (rows * cols + c - rows * cols) with c by lia.
    change (map ?f ?l) with (f <$> l). by rewrite list_lookup_fmap, lookup_seq_lt.
Qed.

Lemma flatten_board_get board rows cols b a c :
  flatten_board board rows cols = Some b -> a < rows -> c < cols ->
  get b (a * cols + c) = entry board a c.
Proof.
  intros Hb%mapM_Some Ha Hc.
  destruct (Forall2_lookup_l _ _ _ _ _ Hb (cells_lookup rows cols a c Ha Hc))
    as (z & Hz & Hf). simpl in Hf.
  unfold get, entry, row_of, get. rewrite Hz. simpl.
  destruct (board !! a) as [r|]; simpl in *; [|done]. by rewrite Hf.
Qed.

Lemma press_vector_get rows cols S a c :
  a < rows -> c < cols ->
  get (press_vector rows cols S) (a * cols + c)
  = if (entry S a c =? 1)%Z then 1%Z else 0%Z.
Proof.
  intros Ha Hc. unfold get, press_vector. change (map ?f ?l) with (f <$> l).
  by rewrite list_lookup_fmap, cells_lookup.
Qed.

Lemma build_matrix_toggled rows cols i j a c :
  i < rows -> j < cols -> a < rows -> c < cols ->
  entry (build_matrix rows cols) (i * cols + j) (a * cols + c)
  = if toggled_by rows cols i j a c then 1%Z else 0%Z.
Proof. intros. by rewrite build_matrix_written, written_toggled. Qed.

(** The parity of the equation of the light [(i, j)] at the vector [y]: the
    number of odd entries of [y] among the cell and its neighbours. *)
Lemma build_matrix_dot rows cols i j y :
  i < rows -> j < cols ->
  Z.odd (dot (rows * cols) (row_of (build_matrix rows cols) (i * cols + j)) y)
  = odd_count (fun ac : nat * nat =>
                 Z.odd (get y (ac.1 * cols + ac.2)) && toggled_by rows cols i j ac.1 ac.2)
              (cells rows cols).
Proof.
  intros Hi Hj. rewrite odd_dot, <- cells_flat, odd_count_map.
  apply odd_count_ext. intros [a c] [Ha Hc]%elem_of_cells. simpl.
  fold (entry (build_matrix rows cols) (i * cols + j) (a * cols + c)).
  rewrite build_matrix_toggled by done.
  destruct (toggled_by rows cols i j a c); simpl; [|by rewrite andb_false_r].
  by rewrite andb_true_r.
Qed.

Lemma flip_if_zero t v : is_bit v -> flip_if t v = 0%Z <-> t = Z.odd v.
Proof. intros [-> | ->]; destruct t; simpl; split; (done || lia). Qed.

Lemma verify_solution_flag board S :
  (verify_solution board S).1 = true
  <-> forall i j, i < length board -> j < length (row_of board 0) ->
        entry (replay board S) i j = 0%Z.
Proof.
  unfold verify_solution. cbn [fst]. rewrite forallb_forall. split.
  - intros H i j Hi Hj. apply Z.eqb_eq, (H (i, j)), list_elem_of_In, elem_of_cells. done.
  - intros H [i j] [Hi Hj]%list_elem_of_In%elem_of_cells. apply Z.eqb_eq. by apply H.
Qed.

(** With a board of bits, [verify_solution] reports [True] for the presses
    whose parities are those of [y] exactly when [y] solves the system that
    [solve_lights_out] builds. *)
Lemma verify_solution_system board S b y :
  shape (length board) (length (row_of board 0)) board ->
  bit_matrix board = true ->
  flatten_board board (length board) (length (row_of board 0)) = Some b ->
  (forall a c, a < length board -> c < length (row_of board 0) ->
     Z.odd (get y (a * length (row_of board 0) + c)) = (entry S a c =? 1)%Z) ->
  (verify_solution board S).1 = true
  <-> solves_system (length board * length (row_of board 0))
        (build_matrix (length board) (length (row_of board 0))) b y.
Proof.
  intros HS Hbits Hb Hy.
  set (rows := length board) in *. set (cols := length (row_of board 0)) in *.
  assert (forall i j, i < rows -> j < cols ->
            entry (replay board S) i j = 0%Z
            <-> (dot (rows * cols) (row_of (build_matrix rows cols) (i * cols + j)) y
                   `mod` 2 = get b (i * cols + j) `mod` 2)%Z) as Hcell.
  { intros i j Hi Hj.
    destruct (replay_entry board S i j HS Hi Hj) as [_ ->]. fold rows cols.
    rewrite flip_if_zero by (by apply bit_matrix_entry).
    rewrite mod2_eq_odd, build_matrix_dot, (flatten_board_get board rows cols b) by done.
    rewrite (odd_count_ext
               (fun ac : nat * nat =>
                  Z.odd (get y (ac.1 * cols + ac.2)) && toggled_by rows cols i j ac.1 ac.2)
               (pressed_near rows cols S i j)); [done|].
    intros [a c] [Ha Hc]%elem_of_cells. unfold pressed_near. simpl. by rewrite Hy. }
  rewrite verify_solution_flag. fold rows cols. unfold solves_system.
  rewrite (flatten_board_length _ _ _ _ Hb). split.
  - intros H l Hl.
    assert (0 < cols) as Hcols by (destruct cols; lia).
    assert (l = (l / cols) * cols + l `mod` cols) as Hdiv.
    { pose proof (Nat.div_mod_eq l cols). lia. }
    assert (l `mod` cols < cols) as Hm by (apply Nat.mod_upper_bound; lia).
    assert (l / cols < rows) as Hd.
    { apply Nat.Div0.div_lt_upper_bound. lia. }
    rewrite Hdiv. by apply Hcell, H.
  - intros H i j Hi Hj. apply Hcell; [done|done|]. apply H. nia.
Qed.

(** ** Solvable boards are solved *)

Lemma gaussian_elimination_gf2_bits n m A b x :
  shape n m A -> length b = n -> (forall i, is_bit (get b i)) ->
  gaussian_elimination_gf2 A b = Returns (Some x) ->
  length x = m /\ forall c, is_bit (get x c).
Proof.
  intros HS Hb Hbits Hret.
  pose proof (gaussian_elimination_gf2_Returns _ _ _ Hret) as [Hn _].
  rewrite (gaussian_elimination_gf2_unfold n m) in Hret by (done || lia).
  injection Hret as Hret.
  eapply back_substitution_bits; [|exact Hret].
  apply (forward_elimination_column is_bit (fun a c _ _ => is_bit_mod2 (a + c)) n (m + 1)).
  - by apply column_stack_shape.
  - intros i. by rewrite (column_stack_target n m).
Qed.

Lemma to_grid_entry rows cols x a c :
  a < rows -> c < cols -> entry (to_grid rows cols x) a c = get x (a * cols + c).
Proof.
  intros Ha Hc. unfold entry, row_of, to_grid. change (map ?f ?l) with (f <$> l).
  rewrite list_lookup_fmap, lookup_seq_lt by done. simpl.
  unfold get at 1. by rewrite list_lookup_fmap, lookup_seq_lt.
Qed.

Lemma flatten_board_rectangular board rows cols :
  shape rows cols board -> is_Some (flatten_board board rows cols).
Proof.
  intros [Hn Hw]. subst rows.
  destruct (flatten_board board (length board) cols) as [b|] eqn:E; [done|].
  apply flatten_board_None, existsb_exists in E as (r & Hr%list_elem_of_In & Hlt%Nat.ltb_lt).
  rewrite Forall_forall in Hw. specialize (Hw r Hr). lia.
Qed.

Lemma bit_fits z : is_bit z -> fits_int64 z = true.
Proof. by intros [-> | ->]. Qed.

Lemma is_bit_eqb_odd z : is_bit z -> (z =? 1)%Z = Z.odd z.
Proof. by intros [-> | ->]. Qed.

(** X4.  On a rectangular board of bits with at least one row and one
    column, [solve_lights_out] returns a grid of the shape of the board, and
    [verify_solution] accepts that grid, with an all-zero result, exactly
    when some grid of presses turns all the lights of the board off: every
    solvable board is solved. *)
Theorem solve_lights_out_solvable board :
  let rows := length board in
  let cols := length (row_of board 0) in
  shape rows cols board -> 1 <= rows -> 1 <= cols -> bit_matrix board = true ->
  exists solution,
    solve_lights_out board = Returns (Some solution)
    /\ shape rows cols solution
    /\ ((exists S, shape rows cols S /\ (verify_solution board S).1 = true)
        <-> verify_solution board solution = (true, zeros2 rows cols)).
Proof.
  intros rows cols HS Hrows Hcols Hbits.
  destruct (flatten_board_rectangular board rows cols HS) as [b Hb].
  pose proof (flatten_board_length _ _ _ _ Hb) as Hlen.
  assert (forall i, is_bit (get b i)) as Hbbits
    by (intros i; by eapply flatten_board_bits).
  assert (forallb fits_int64 b = true) as Hfits.
  { apply forallb_forall. intros z [k Hk]%list_elem_of_In%list_elem_of_lookup.
    apply bit_fits. specialize (Hbbits k). unfold get in Hbbits. by rewrite Hk in Hbbits. }
  destruct (gaussian_elimination_gf2_build rows cols b) as [x Hx]; [nia|done|].
  pose proof (build_matrix_shape rows cols) as HSA.
  destruct (gaussian_elimination_gf2_bits _ _ _ b x HSA Hlen Hbbits Hx) as [Hxlen Hxbits].
  exists (to_grid rows cols x). split; [|split].
  - rewrite (solve_lights_out_read board b) by done. fold rows cols. by rewrite Hx.
  - apply to_grid_shape.
  - assert ((verify_solution board (to_grid rows cols x)).1 = true
            <-> solves_system (rows * cols) (build_matrix rows cols) b x) as Hver.
    { apply verify_solution_system; try done. intros a c Ha Hc.
      rewrite to_grid_entry by done. symmetry. apply is_bit_eqb_odd, Hxbits. }
    split.
    + intros (S & _ & HSver).
      assert (solves_system (rows * cols) (build_matrix rows cols) b
                (press_vector rows cols S)) as Hy.
      { apply (verify_solution_system board S); try done. intros a c Ha Hc.
        rewrite press_vector_get by done. by destruct (entry S a c =? 1)%Z. }
      assert (solves_system (rows * cols) (build_matrix rows cols) b x) as Hsol.
      { rewrite (gaussian_elimination_gf2_unfold (rows * cols) (rows * cols)) in Hx
          by (done || nia).
        injection Hx as Hx.
        pose proof (forward_elimination_reduced _ _ _ b HSA Hlen
                      (fun i c => bit_matrix_entry _ i c (build_matrix_bits rows cols)))
          as Hred.
        apply (forward_elimination_solves (rows * cols) (rows * cols)); [done|done|].
        apply (reduced_solves _ _ _ _ _ x Hred Hx). intros i Hi.
        apply (reduced_zero_row _ _ _ _ _ i (press_vector rows cols S) Hred Hi).
        by apply (forward_elimination_solves (rows * cols) (rows * cols)). }
      apply Hver in Hsol.
      assert ((verify_solution board (to_grid rows cols x)).2 = zeros2 rows cols) as Hres.
      { apply (shape_ext rows cols); [by apply replay_shape|apply shape_zeros2|].
        intros i j Hi Hj. rewrite entry_zeros2.
        by apply (verify_solution_flag board (to_grid rows cols x)). }
      destruct (verify_solution board (to_grid rows cols x)) as [flag result].
      simpl in *. by subst.
    + intros Hv. exists (to_grid rows cols x). split; [apply to_grid_shape|].
      by rewrite Hv.
Qed.

Lemma solve_lights_out_solvable_witness :
  exists solution,
    solve_lights_out [[1; 1]; [1; 0]]%Z = Returns (Some solution)
    /\ shape 2 2 solution
    /\ ((exists S, shape 2 2 S /\ (verify_solution [[1; 1]; [1; 0]]%Z S).1 = true)
        <-> verify_solution [[1; 1]; [1; 0]]%Z solution = (true, zeros2 2 2)).
Proof.
  apply (solve_lights_out_solvable [[1; 1]; [1; 0]]%Z).
  - split; [reflexivity|]. repeat constructor.
  - simpl. lia.
  - simpl. lia.
  - reflexivity.
Defined.

(** ** The matrix left by the forward elimination *)

Lemma pivot_columns_increasing n aug0 m k k' c c' :
  k < k' ->
  pivot_columns n m aug0 !! k = Some c -> pivot_columns n m aug0 !! k' = Some c' ->
  c < c'.
Proof.
  revert k k' c c'. induction m as [|m IH]; intros k k' c c' Hlt; [done|].
  rewrite pivot_columns_S.
  intros [Hk|[Hge Hk]]%lookup_app_Some [Hk'|[Hge' Hk']]%lookup_app_Some.
  - by apply (IH k k').
  - assert (c ∈ pivot_columns n m aug0) as Hin by (by eapply list_elem_of_lookup_2).
    apply elem_of_pivot_columns in Hin as [Hc _].
    destruct (found_pivot n aug0 m); [|done].
    apply list_lookup_singleton_Some in Hk' as [_ <-]. done.
  - apply lookup_lt_Some in Hk'. lia.
  - destruct (found_pivot n aug0 m); [|done].
    apply list_lookup_singleton_Some in Hk as [Hk _].
    apply list_lookup_singleton_Some in Hk' as [Hk' _]. lia.
Qed.

Lemma elimination_fold_rows n w cols aug pr :
  shape n w aug -> pr <= n ->
  (fold_left (elimination_step n) cols (aug, pr)).2 <= n.
Proof.
  revert aug pr. induction cols as [|col cols IH]; intros aug pr HS Hpr; [done|].
  cbn [fold_left].
  destruct (elimination_step_column (fun _ => True) (fun _ _ _ _ => I) n w aug pr col 0 HS Hpr)
    as (HS' & Hpr' & _); [done|].
  destruct (elimination_step n (aug, pr) col) as [aug' pr']. by apply IH.
Qed.

(** X5.  The forward elimination of [A | b], for any integer entries,
    keeps the shape of the augmented matrix, ends with [pivot_row <= n] (so
    that [min(pivot_row, n)] in the back-substitution is [pivot_row]), and
    leaves equations with exactly the solutions of [A x = b] over GF(2): row
    swaps and row additions modulo 2 neither add nor lose a solution. *)
Theorem forward_elimination_equivalent n m A b x :
  shape n m A -> length b = n ->
  let aug := (forward_elimination n m (column_stack A b)).1 in
  let pivot_row := (forward_elimination n m (column_stack A b)).2 in
  shape n (m + 1) aug
  /\ pivot_row <= n
  /\ substitution_range n pivot_row = rev (seq 0 pivot_row)
  /\ (solves m aug x <-> solves_system m A b x).
Proof.
  intros HS Hb aug pivot_row.
  pose proof (column_stack_shape n m A b HS Hb) as HSaug.
  assert (pivot_row <= n) as Hpr.
  { apply (elimination_fold_rows n (m + 1)); [done|lia]. }
  split; [|split; [done|split]].
  - apply (elimination_fold_column (fun _ => True) (fun _ _ _ _ => I) n (m + 1)
             (seq 0 m) _ 0 0 HSaug); [lia|done].
  - unfold substitution_range. by rewrite Nat.min_l.
  - by apply forward_elimination_solves.
Qed.

Lemma forward_elimination_equivalent_witness :
  solves 2 (forward_elimination 2 2 (column_stack [[1; 3]; [1; 0]]%Z [5; 1]%Z)).1 [1; 0]%Z
  <-> solves_system 2 [[1; 3]; [1; 0]]%Z [5; 1]%Z [1; 0]%Z.
Proof.
  apply (forward_elimination_equivalent 2 2 [[1; 3]; [1; 0]]%Z [5; 1]%Z [1; 0]%Z).
  - split; [reflexivity|]. repeat constructor.
  - reflexivity.
Defined.

(** X6.  For a matrix of bits, the forward elimination leaves the
    coefficient part in reduced row echelon form: [pivot_row] is the number
    of pivot columns, these increase from row to row, each pivot column has
    a single 1, in its pivot row, whose entries to the left of the pivot are
    0, and the rows from [pivot_row] on have only zero coefficients. *)
Theorem forward_elimination_echelon n m A b :
  shape n m A -> length b = n -> bit_matrix A = true ->
  let aug := (forward_elimination n m (column_stack A b)).1 in
  let pivot_row := (forward_elimination n m (column_stack A b)).2 in
  let pcs := pivot_columns n m (column_stack A b) in
  length pcs = pivot_row /\ pivot_row <= n /\ pivot_row <= m
  /\ (forall k c, pcs !! k = Some c ->
        c < m
        /\ (forall i, entry aug i c = if decide (i = k) then 1%Z else 0%Z)
        /\ (forall c', c' < c -> entry aug k c' = 0%Z)
        /\ (forall k' c', k < k' -> pcs !! k' = Some c' -> c < c'))
  /\ (forall i c, pivot_row <= i -> c < m -> entry aug i c = 0%Z).
Proof.
  intros HS Hb Hbits aug pivot_row pcs.
  pose proof (forward_elimination_reduced n m A b HS Hb
                (fun i c => bit_matrix_entry A i c Hbits)) as Hred.
  fold aug pivot_row pcs in Hred.
  destruct Hred as [_ _ Hcount Hrows Hbefore Hunit Hlead Hbelow].
  split; [done|]. split; [done|]. split.
  - rewrite <- Hcount. unfold pcs, pivot_columns.
    etrans; [apply length_filter|]. by rewrite length_seq.
  - split; [|done]. intros k c Hk. split; [by eapply Hbefore|].
    split; [intros i; by apply Hunit|]. split; [intros c'; by apply Hlead|].
    intros k' c' Hlt Hk'.
    by apply (pivot_columns_increasing n (column_stack A b) m k k').
Qed.

Lemma forward_elimination_echelon_witness :
  length (pivot_columns 2 2 (column_stack [[1; 1]; [1; 1]]%Z [1; 0]%Z))
  = (forward_elimination 2 2 (column_stack [[1; 1]; [1; 1]]%Z [1; 0]%Z)).2.
Proof.
  apply (forward_elimination_echelon 2 2 [[1; 1]; [1; 1]]%Z [1; 0]%Z).
  - split; [reflexivity|]. repeat constructor.
  - reflexivity.
  - reflexivity.
Defined.

(** ** What [solve_lights_out] reads and how it can end *)

Lemma flatten_board_take board rows cols :
  flatten_board (take cols <$> board) rows cols = flatten_board board rows cols.
Proof.
  unfold flatten_board. apply Forall_mapM_ext, Forall_forall.
  intros [i j] [_ Hj]%elem_of_cells. simpl. rewrite list_lookup_fmap.
  destruct (board !! i) as [r|]; simpl; [|done]. by apply lookup_take_lt.
Qed.

(** X7.  [solve_lights_out] reads of each row only the first
    [len(board[0])] cells: cutting every row to the length of the first one
    changes nothing, neither the grid returned nor the exception raised. *)
Theorem solve_lights_out_ignores_extra_cells board :
  solve_lights_out (take (length (row_of board 0)) <$> board) = solve_lights_out board.
Proof.
  destruct board as [|row0 rest]; [done|].
  change (row_of (row0 :: rest) 0) with row0.
  set (cols := length row0).
  assert (take cols <$> (row0 :: rest) = row0 :: (take cols <$> rest)) as Heq.
  { rewrite fmap_cons. f_equal. by apply take_ge. }
  rewrite Heq. unfold solve_lights_out. fold cols.
  assert (length (row0 :: (take cols <$> rest)) = length (row0 :: rest)) as ->.
  { simpl. by rewrite length_fmap. }
  by rewrite <- Heq, flatten_board_take.
Qed.

Lemma forallb_false_lookup {T : Type} (f : T -> bool) (l : list T) :
  forallb f l = false -> exists k x, l !! k = Some x /\ f x = false.
Proof.
  induction l as [|a l IH]; simpl; [done|].
  destruct (f a) eqn:E; simpl.
  - intros (k & x & Hk & Hx)%IH. by exists (S k), x.
  - intros _. by exists 0, a.
Qed.

Lemma flatten_board_overflow board rows cols b :
  flatten_board board rows cols = Some b ->
  forallb fits_int64 b = false
  <-> exists a c, a < rows /\ c < cols /\ fits_int64 (entry board a c) = false.
Proof.
  intros Hb. pose proof (flatten_board_length _ _ _ _ Hb) as Hlen. split.
  - intros (k & z & Hk & Hz)%forallb_false_lookup.
    pose proof (lookup_lt_Some _ _ _ Hk) as Hlt. rewrite Hlen in Hlt.
    assert (0 < cols) as Hcols by (destruct cols; lia).
    exists (k / cols), (k `mod` cols).
    assert (k `mod` cols < cols) as Hm by (apply Nat.mod_upper_bound; lia).
    assert (k / cols < rows) as Hd by (apply Nat.Div0.div_lt_upper_bound; lia).
    split; [done|]. split; [done|].
    rewrite <- (flatten_board_get board rows cols b) by done.
    replace (k / cols * cols + k `mod` cols) with k
      by (pose proof (Nat.div_mod_eq k cols); lia).
    unfold get. by rewrite Hk.
  - intros (a & c & Ha & Hc & Hz). apply not_true_is_false. intros Hall.
    rewrite forallb_forall in Hall.
    rewrite <- (flatten_board_get board rows cols b) in Hz by done.
    assert (a * cols + c < length b) as Hlt by (rewrite Hlen; nia).
    destruct (lookup_lt_is_Some_2 b _ Hlt) as [z Hk].
    unfold get in Hz. rewrite Hk in Hz. simpl in Hz.
    rewrite Hall in Hz; [done|]. by eapply list_elem_of_In, list_elem_of_lookup_2.
Qed.

(** X8.  The ways [solve_lights_out] can end: it never returns [None] and
    never raises [ValueError] or [TypeError]; it raises [OverflowError]
    exactly when all reads are in range and some cell read does not fit a
    signed 64-bit integer. *)
Theorem solve_lights_out_endings board :
  solve_lights_out board <> Returns None
  /\ solve_lights_out board <> Raises ValueError
  /\ solve_lights_out board <> Raises TypeError
  /\ (solve_lights_out board = Raises OverflowError
      <-> index_defect board = false
          /\ exists a c, a < length board /\ c < length (row_of board 0)
                         /\ fits_int64 (entry board a c) = false).
Proof.
  unfold solve_lights_out, index_defect.
  destruct board as [|row0 rest].
  { repeat split; try done. by intros [? _]. }
  change (row_of (row0 :: rest) 0) with row0.
  set (board := row0 :: rest).
  destruct (Nat.eqb_spec (length row0) 0) as [Hz|Hnz]; cbn [orb].
  { rewrite Hz, build_matrix_no_columns. unfold flatten_board.
    rewrite cells_no_columns. simpl. repeat split; try done. by intros [? _]. }
  pose proof (flatten_board_None board (length row0)) as Hnone.
  destruct (flatten_board board (length board) (length row0)) as [b|] eqn:Hb.
  - assert (existsb (fun r => length r <? length row0) board = false) as ->.
    { apply not_true_is_false. intros H. by apply Hnone in H. }
    pose proof (flatten_board_length _ _ _ _ Hb) as Hlen.
    pose proof (flatten_board_overflow _ _ _ _ Hb) as Hover.
    destruct (gaussian_elimination_gf2_build (length board) (length row0) b)
      as [x ->]; [simpl; lia|done|].
    destruct (forallb fits_int64 b).
    + repeat split; try done. intros [_ H]. by apply Hover in H.
    + repeat split; try done. by apply Hover.
  - assert (existsb (fun r => length r <? length row0) board = true) as ->
      by (by apply Hnone).
    repeat split; try done. by intros [? _].
Qed.

(** ** The toggle matrix *)

Lemma entry_beyond n w M r c : shape n w M -> n <= r \/ w <= c -> entry M r c = 0%Z.
Proof.
  intros HS [Hr|Hc].
  - apply entry_ge_row. destruct HS as [-> _]. lia.
  - destruct (decide (r < n)) as [Hlt|Hge].
    + unfold entry. apply get_ge. by rewrite (shape_row n w M r).
    + apply entry_ge_row. destruct HS as [-> _]. lia.
Qed.

Lemma flat_index_split cols l rows :
  l < rows * cols -> exists a c, a < rows /\ c < cols /\ l = a * cols + c.
Proof.
  intros Hl. assert (0 < cols) as Hcols by (destruct cols; lia).
  exists (l / cols), (l `mod` cols).
  split; [apply Nat.Div0.div_lt_upper_bound; lia|].
  split; [apply Nat.mod_upper_bound; lia|].
  pose proof (Nat.div_mod_eq l cols). lia.
Qed.

(** X9.  The coefficient matrix that [solve_lights_out] builds is
    symmetric, with a diagonal of ones: pressing the button of a cell
    toggles the light of another cell exactly when the converse holds. *)
Theorem build_matrix_symmetric rows cols l k :
  entry (build_matrix rows cols) l k = entry (build_matrix rows cols) k l
  /\ (l < rows * cols -> entry (build_matrix rows cols) l l = 1%Z).
Proof.
  pose proof (build_matrix_shape rows cols) as HS.
  split.
  - destruct (decide (l < rows * cols)) as [Hl|Hl];
      [destruct (decide (k < rows * cols)) as [Hk|Hk]|].
    + apply flat_index_split in Hl as (i & j & Hi & Hj & ->).
      apply flat_index_split in Hk as (a & c & Ha & Hc & ->).
      rewrite !build_matrix_toggled by done. by rewrite toggled_by_sym.
    + rewrite !(entry_beyond _ _ _ _ _ HS); (done || lia).
    + rewrite !(entry_beyond _ _ _ _ _ HS); (done || lia).
  - intros (i & j & Hi & Hj & ->)%flat_index_split.
    rewrite build_matrix_toggled by done.
    unfold toggled_by. rewrite bool_decide_eq_true_2; [done|by left].
Qed.

Lemma build_matrix_symmetric_witness :
  entry (build_matrix 2 3) 4 4 = 1%Z.
Proof.
  apply (build_matrix_symmetric 2 3 4 0). lia.
Defined.

(** ** Composing replays *)

Lemma odd_count_false {T : Type} (p : T -> bool) l :
  (forall a, a ∈ l -> p a = false) -> odd_count p l = false.
Proof.
  induction l as [|a l IH]; intros H; simpl; [done|].
  rewrite (H a) by (by left). rewrite IH; [done|]. intros a' Ha'. apply H. by right.
Qed.

Lemma replay_replay board S1 S2 i j :
  shape (length board) (length (row_of board 0)) board ->
  shape (length board) (length (row_of board 0)) (replay (replay board S1) S2)
  /\ entry (replay (replay board S1) S2) i j
     = flip_if
         (xorb (odd_count (fun ac : nat * nat =>
                             (entry S2 ac.1 ac.2 =? 1)%Z
                             && toggled_by (length board) (length (row_of board 0))
                                           ac.1 ac.2 i j)
                          (cells (length board) (length (row_of board 0))))
               (odd_count (fun ac : nat * nat =>
                             (entry S1 ac.1 ac.2 =? 1)%Z
                             && toggled_by (length board) (length (row_of board 0))
                                           ac.1 ac.2 i j)
                          (cells (length board) (length (row_of board 0)))))
         (entry board i j).
Proof.
  intros HS.
  destruct (replay_dims board S1 HS) as [Hrows Hcols].
  pose proof (replay_shape board S1 HS) as HS1.
  unfold replay at 1 3. rewrite Hrows, Hcols.
  set (rows := length board) in *. set (cols := length (row_of board 0)) in *.
  destruct (replay_fold rows cols S2 (cells rows cols) _ i j HS1 (cells_in_range _ _))
    as [HS2 ->].
  split; [done|]. unfold replay. fold rows cols.
  destruct (replay_fold rows cols S1 (cells rows cols) _ i j HS (cells_in_range _ _))
    as [_ ->].
  by rewrite flip_if_xorb.
Qed.

(** X10.  The order of two replays does not matter: on a non-empty
    rectangular board and with two solution grids of its shape, replaying
    the first and then the second gives the grid that replaying the second
    and then the first gives. *)
Theorem verify_solution_commute board S1 S2 :
  0 < length board ->
  shape (length board) (length (row_of board 0)) board ->
  shape (length board) (length (row_of board 0)) S1 ->
  shape (length board) (length (row_of board 0)) S2 ->
  (verify_solution (verify_solution board S1).2 S2).2
  = (verify_solution (verify_solution board S2).2 S1).2.
Proof.
  intros _ HS _ _. unfold verify_solution. cbn [snd].
  apply (shape_ext (length board) (length (row_of board 0))).
  - by apply (replay_replay board S1 S2 0 0).
  - by apply (replay_replay board S2 S1 0 0).
  - intros i j _ _.
    destruct (replay_replay board S1 S2 i j HS) as [_ ->].
    destruct (replay_replay board S2 S1 i j HS) as [_ ->].
    f_equal. apply xorb_comm.
Qed.

Lemma verify_solution_commute_witness :
  (verify_solution (verify_solution [[1; 0]; [0; 1]]%Z [[1; 0]; [0; 0]]%Z).2
                   [[0; 1]; [1; 0]]%Z).2
  = (verify_solution (verify_solution [[1; 0]; [0; 1]]%Z [[0; 1]; [1; 0]]%Z).2
                     [[1; 0]; [0; 0]]%Z).2.
Proof.
  apply (verify_solution_commute [[1; 0]; [0; 1]]%Z [[1; 0]; [0; 0]]%Z [[0; 1]; [1; 0]]%Z);
    [simpl; lia|..]; (split; [reflexivity|]; repeat constructor).
Defined.

(** X11.  A solution grid without any 1 presses nothing: on a non-empty
    rectangular board, [verify_solution] then returns the board itself, and
    reports [True] exactly when every cell of the board is 0. *)
Theorem verify_solution_no_press board solution :
  0 < length board ->
  shape (length board) (length (row_of board 0)) board ->
  shape (length board) (length (row_of board 0)) solution ->
  (forall i j, i < length board -> j < length (row_of board 0) ->
     entry solution i j <> 1%Z) ->
  (verify_solution board solution).2 = board
  /\ ((verify_solution board solution).1 = true
      <-> forall i j, i < length board -> j < length (row_of board 0) ->
            entry board i j = 0%Z).
Proof.
  intros _ HS _ Hno.
  assert (forall i j, i < length board -> j < length (row_of board 0) ->
            entry (replay board solution) i j = entry board i j) as Hsame.
  { intros i j Hi Hj. destruct (replay_entry board solution i j HS Hi Hj) as [_ ->].
    rewrite odd_count_false; [done|].
    intros [a c] [Ha Hc]%elem_of_cells. unfold pressed_near. simpl.
    destruct (Z.eqb_spec (entry solution a c) 1) as [He|]; [|done].
    by destruct (Hno a c Ha Hc). }
  split.
  - unfold verify_solution. cbn [snd].
    apply (shape_ext (length board) (length (row_of board 0)));
      [by apply replay_shape|done|done].
  - rewrite verify_solution_flag. split; intros H i j Hi Hj.
    + rewrite <- Hsame by done. by apply H.
    + rewrite Hsame by done. by apply H.
Qed.

Lemma verify_solution_no_press_witness :
  (verify_solution [[1; 0]; [0; 1]]%Z [[0; 0]; [0; 2]]%Z).2 = [[1; 0]; [0; 1]]%Z.
Proof.
  apply (verify_solution_no_press [[1; 0]; [0; 1]]%Z [[0; 0]; [0; 2]]%Z).
  - simpl. lia.
  - split; [reflexivity|]. repeat constructor.
  - split; [reflexivity|]. repeat constructor.
  - intros [|[|i]] [|[|j]] Hi Hj; simpl in Hi, Hj; try lia; vm_compute; discriminate.
Defined.

(** ** The 3 by 3 boards *)

Lemma elem_of_bit_rows cols r :
  length r = cols -> bits r = true -> r ∈ bit_rows cols.
Proof.
  revert r. induction cols as [|cols IH]; intros r Hlen Hbits.
  - destruct r; [by left|done].
  - destruct r as [|z r]; [done|]. simpl in Hlen.
    unfold bits in Hbits. simpl in Hbits. apply andb_true_iff in Hbits as [Hz Hr].
    simpl. apply list_elem_of_bind. exists r. split; [|apply IH; [lia|done]].
    apply bit_is_bit in Hz as [-> | ->]; [by left|by right; left].
Qed.

Lemma elem_of_bit_boards rows cols board :
  shape rows cols board -> bit_matrix board = true -> board ∈ bit_boards rows cols.
Proof.
  revert board. induction rows as [|rows IH]; intros board [Hlen Hw] Hbits.
  - destruct board; [by left|done].
  - destruct board as [|r board]; [done|]. simpl in Hlen.
    apply Forall_cons in Hw as [Hr Hw].
    unfold bit_matrix in Hbits. simpl in Hbits. apply andb_true_iff in Hbits as [Hrb Hb].
    simpl. apply list_elem_of_bind. exists board. split.
    + apply list_elem_of_bind. exists r. split; [by left|by apply elem_of_bit_rows].
    + apply IH; [split; [lia|done]|done].
Qed.

(** X12.  Every 3 by 3 board of bits is solved: [solve_lights_out] returns
    a grid for which [verify_solution] reports [True] and returns the
    all-zero grid. *)
Theorem solve_lights_out_3x3 board :
  shape 3 3 board -> bit_matrix board = true ->
  exists solution,
    solve_lights_out board = Returns (Some solution)
    /\ verify_solution board solution = (true, zeros2 3 3).
Proof.
  intros HS Hbits.
  assert (forallb solved (bit_boards 3 3) = true) as Hall by (vm_compute; reflexivity).
  rewrite forallb_forall in Hall.
  specialize (Hall board ltac:(by apply list_elem_of_In, elem_of_bit_boards)).
  unfold solved in Hall.
  destruct (solve_lights_out board) as [e|[solution|]]; try done.
  apply bool_decide_eq_true in Hall.
  exists solution. split; [done|]. rewrite Hall.
  rewrite (shape_row 3 3 board 0 HS) by lia. by destruct HS as [-> _].
Qed.

Lemma solve_lights_out_3x3_witness :
  exists solution,
    solve_lights_out [[1; 0; 1]; [0; 0; 1]; [1; 1; 1]]%Z = Returns (Some solution)
    /\ verify_solution [[1; 0; 1]; [0; 0; 1]; [1; 1; 1]]%Z solution = (true, zeros2 3 3).
Proof.
  apply (solve_lights_out_3x3 [[1; 0; 1]; [0; 0; 1]; [1; 1; 1]]%Z).
  - split; [reflexivity|]. repeat constructor.
  - reflexivity.
Defined.

(** ** [verify_solution] on references *)

Lemma read_ints_Some items row : read_ints items = Some row -> items = VInt <$> row.
Proof.
  unfold read_ints. intros H%mapM_Some.
  induction H as [|v z items row Hv H IH]; [done|].
  destruct v as [z'|l]; [|done]. injection Hv as ->. simpl. by rewrite IH.
Qed.

Lemma read_grid_holds (h : gmap positive object) l G :
  read_grid h l = Some G -> exists refs, holds_grid h l refs G.
Proof.
  unfold read_grid, holds_grid.
  destruct (h !! l) as [[items| |]|]; try done.
  intros H%mapM_Some.
  assert (exists refs, items = VRef <$> refs
            /\ Forall2 (fun r row => h !! r = Some (PyList (VInt <$> row))) refs G)
    as (refs & -> & Hrefs); [|by exists refs].
  induction H as [|v row items G Hv H (refs & -> & Hrefs)]; [by exists []|].
  destruct v as [z|r]; [done|]. simpl in Hv.
  destruct (h !! r) as [[ritems| |]|] eqn:Hr; try done.
  apply read_ints_Some in Hv as ->.
  exists (r :: refs). split; [done|]. by constructor.
Qed.

Lemma holds_grid_weaken (h h' : gmap positive object) l refs R :
  h ⊆ h' -> holds_grid h l refs R -> holds_grid h' l refs R.
Proof.
  intros Hsub [Hl Hrows]. split; [exact (lookup_weaken _ _ _ _ Hl Hsub)|].
  eapply Forall2_impl; [exact Hrows|]. intros r row Hr. simpl in *.
  exact (lookup_weaken _ _ _ _ Hr Hsub).
Qed.

Lemma holds_grid_read_grid (h : gmap positive object) l refs R :
  holds_grid h l refs R -> read_grid h l = Some R.
Proof. intros [Hl Hrows]. by eapply read_grid_rows. Qed.

Lemma shape_covers n w S : shape n w S -> covers n w S.
Proof. intros HS i j Hi Hj. by rewrite (shape_row n w S i). Qed.

Lemma holds_grid_row (h : gmap positive object) l refs R i j :
  holds_grid h l refs R -> j < length (row_of R i) ->
  exists r, refs !! i = Some r /\ R !! i = Some (row_of R i)
            /\ h !! r = Some (PyList (VInt <$> row_of R i)).
Proof.
  intros [Hl Hrows] Hj. unfold row_of in *.
  destruct (R !! i) as [row|] eqn:Hrow; [|simpl in Hj; lia].
  destruct (Forall2_lookup_r _ _ _ _ _ Hrows Hrow) as (r & Hr & Hh).
  by exists r.
Qed.

Lemma read_cell_cell (h : gmap positive object) l refs R i j :
  holds_grid h l refs R -> j < length (row_of R i) ->
  read_cell l i j h = (Returns (entry R i j), h).
Proof.
  intros Hg Hj.
  destruct (holds_grid_row h l refs R i j Hg Hj) as (r & Hr & _ & Hh).
  destruct Hg as [Hl _]. unfold read_cell. rewrite Hl, list_lookup_fmap, Hr. simpl.
  rewrite Hh, list_lookup_fmap. unfold entry, get.
  destruct (lookup_lt_is_Some_2 (row_of R i) j) as [z ->]; [lia|]. done.
Qed.

(** A read outside the grid raises [IndexError]. *)
Lemma read_cell_missing (h : gmap positive object) l refs R i j :
  holds_grid h l refs R -> length (row_of R i) <= j ->
  read_cell l i j h = (Raises IndexError, h).
Proof.
  intros [Hl Hrows] Hj. unfold read_cell. rewrite Hl, list_lookup_fmap.
  unfold row_of in Hj.
  destruct (refs !! i) as [r|] eqn:Hr; [|done]. simpl.
  destruct (Forall2_lookup_l _ _ _ _ _ Hrows Hr) as (row & Hrow & Hh).
  rewrite Hrow in Hj. simpl in Hj.
  rewrite Hh, list_lookup_fmap, (lookup_ge_None_2 row j) by lia. done.
Qed.

(** An assignment to a cell of a grid whose rows are distinct objects
    changes that cell, in the store, and nothing else. *)
Lemma write_cell_cell (h0 h : gmap positive object) l refs R i j z :
  owns h0 h l refs R -> j < length (row_of R i) ->
  exists h', write_cell l i j z h = (Returns tt, h')
             /\ owns h0 h' l refs (alter (fun r => <[j := z]> r) i R).
Proof.
  intros (Hsub & Hg & Hnd & Hnotin & Hfresh) Hj.
  destruct (holds_grid_row h l refs R i j Hg Hj) as (r & Hr & HRi & Hh).
  destruct Hg as [Hl Hrows]. unfold write_cell.
  rewrite Hl, list_lookup_fmap, Hr. simpl. rewrite Hh, length_fmap.
  destruct (Nat.ltb_spec j (length (row_of R i))) as [_|]; [|lia].
  eexists. split; [done|].
  assert (r ∈ refs) as Hin by (by eapply list_elem_of_lookup_2).
  split; [|split; [split|done]].
  - apply insert_subseteq_r; [|done]. rewrite Forall_forall in Hfresh. by apply Hfresh.
  - rewrite lookup_insert_ne; [done|]. by intros ->.
  - apply Forall2_same_length_lookup_2.
    { rewrite length_alter. by eapply Forall2_length. }
    intros k r' row' Hr' Hrow'.
    destruct (decide (k = i)) as [->|Hne].
    + assert (r' = r) as -> by congruence.
      rewrite list_lookup_alter_eq, HRi in Hrow'. simpl in Hrow'. injection Hrow' as <-.
      by rewrite lookup_insert_eq, list_fmap_insert.
    + rewrite list_lookup_alter_ne in Hrow' by done.
      rewrite lookup_insert_ne.
      * by apply (Forall2_lookup_lr _ _ _ _ _ _ Hrows Hr' Hrow').
      * intros <-. apply Hne. by eapply NoDup_lookup.
Qed.

Lemma toggle_st_cell (h0 h : gmap positive object) l refs R i j :
  owns h0 h l refs R -> j < length (row_of R i) ->
  exists h', toggle_st l i j h = (Returns tt, h') /\ owns h0 h' l refs (toggle R i j).
Proof.
  intros Ho Hj. pose proof Ho as (_ & Hg & _).
  unfold toggle_st, bind. rewrite (read_cell_cell _ _ refs R) by done.
  destruct (write_cell_cell h0 h l refs R i j (1 - entry R i j)%Z Ho Hj)
    as (h' & -> & Ho').
  exists h'. split; [done|].
  replace (toggle R i j) with (alter (fun r => <[j := (1 - entry R i j)%Z]> r) i R); [done|].
  unfold toggle. apply list_eq. intros k.
  destruct (decide (k = i)) as [->|Hne].
  - rewrite !list_lookup_alter_eq. unfold entry, row_of.
    by destruct (R !! i).
  - by rewrite !list_lookup_alter_ne.
Qed.

Lemma toggle_st_missing (h : gmap positive object) l refs R i j :
  holds_grid h l refs R -> length (row_of R i) <= j ->
  toggle_st l i j h = (Raises IndexError, h).
Proof.
  intros Hg Hj. unfold toggle_st, bind. by rewrite (read_cell_missing _ _ refs R).
Qed.

Lemma toggle_st_owns n w (h0 h : gmap positive object) l refs R (b : bool) i j :
  owns h0 h l refs R -> shape n w R -> (b = true -> i < n /\ j < w) ->
  exists h', (if b then toggle_st l i j else ret tt) h = (Returns tt, h')
             /\ owns h0 h' l refs (if b then toggle R i j else R)
             /\ shape n w (if b then toggle R i j else R).
Proof.
  intros Ho HS Hb.
  destruct b; [|by exists h].
  destruct Hb as [Hi Hj]; [done|].
  destruct (toggle_st_cell h0 h l refs R i j Ho) as (h' & Hrun & Ho').
  { by rewrite (shape_row n w R i). }
  exists h'. split; [done|]. split; [done|]. by apply toggle_shape.
Qed.

Lemma press_st_owns n w (h0 h : gmap positive object) sl srefs S l refs R a c :
  owns h0 h l refs R -> shape n w R ->
  holds_grid h0 sl srefs S -> c < length (row_of S a) -> a < n -> c < w ->
  exists h', press_st n w sl l (a, c) h = (Returns tt, h')
             /\ owns h0 h' l refs (apply_press n w S R (a, c))
             /\ shape n w (apply_press n w S R (a, c)).
Proof.
  intros Ho HS HgS HSS Ha Hc.
  assert (holds_grid h sl srefs S) as HgS'.
  { destruct Ho as [Hsub _]. by eapply holds_grid_weaken. }
  unfold press_st, bind at 1.
  rewrite (read_cell_cell h sl srefs S a c) by done.
  unfold apply_press.
  destruct (entry S a c =? 1)%Z; [|by exists h].
  destruct (toggle_st_owns n w h0 h l refs R true a c Ho HS)
    as (h1 & E1 & Ho1 & HS1); [done|].
  set (R1 := toggle R a c) in *. cbv zeta.
  destruct (toggle_st_owns n w h0 h1 l refs R1 (0 <? a) (a - 1) c Ho1 HS1)
    as (h2 & E2 & Ho2 & HS2).
  { intros H%Nat.ltb_lt. lia. }
  set (R2 := if 0 <? a then toggle R1 (a - 1) c else R1) in *.
  destruct (toggle_st_owns n w h0 h2 l refs R2 (a <? n - 1) (a + 1) c Ho2 HS2)
    as (h3 & E3 & Ho3 & HS3).
  { intros H%Nat.ltb_lt. lia. }
  set (R3 := if a <? n - 1 then toggle R2 (a + 1) c else R2) in *.
  destruct (toggle_st_owns n w h0 h3 l refs R3 (0 <? c) a (c - 1) Ho3 HS3)
    as (h4 & E4 & Ho4 & HS4).
  { intros H%Nat.ltb_lt. lia. }
  set (R4 := if 0 <? c then toggle R3 a (c - 1) else R3) in *.
  destruct (toggle_st_owns n w h0 h4 l refs R4 (c <? w - 1) a (c + 1) Ho4 HS4)
    as (h5 & E5 & Ho5 & HS5).
  { intros H%Nat.ltb_lt. lia. }
  exists h5. unfold bind. simpl in E1. rewrite E1, E2, E3, E4, E5. done.
Qed.

Lemma for_each_press_owns n w (h0 : gmap positive object) sl srefs S l refs L :
  holds_grid h0 sl srefs S ->
  Forall (fun t : nat * nat => t.1 < n /\ t.2 < w /\ t.2 < length (row_of S t.1)) L ->
  forall h R, owns h0 h l refs R -> shape n w R ->
  exists h', for_each L (press_st n w sl l) h = (Returns tt, h')
             /\ owns h0 h' l refs (fold_left (apply_press n w S) L R)
             /\ shape n w (fold_left (apply_press n w S) L R).
Proof.
  intros HgS HL. induction HL as [|[a c] L (Ha & Hc & Hcell) HL IH]; intros h R Ho HS.
  - by exists h.
  - destruct (press_st_owns n w h0 h sl srefs S l refs R a c) as (h1 & E1 & Ho1 & HS1);
      try done.
    destruct (IH h1 _ Ho1 HS1) as (h' & E & Ho').
    exists h'. split; [|done].
    cbn [for_each]. unfold bind at 1. by rewrite E1.
Qed.

(** The loop stops with [IndexError] at the first cell that the solution
    grid does not have. *)
Lemma for_each_press_missing n w (h0 : gmap positive object) sl srefs S l refs L :
  holds_grid h0 sl srefs S ->
  Forall (fun t : nat * nat => t.1 < n /\ t.2 < w) L ->
  Exists (fun t : nat * nat => length (row_of S t.1) <= t.2) L ->
  forall h R, owns h0 h l refs R -> shape n w R ->
  (for_each L (press_st n w sl l) h).1 = Raises IndexError.
Proof.
  intros HgS HL. induction HL as [|[a c] L [Ha Hc] HL IH]; intros HE h R Ho HS.
  - by apply Exists_nil in HE.
  - cbn [for_each]. unfold bind at 1.
    destruct (decide (c < length (row_of S a))) as [Hcell|Hcell].
    + destruct (press_st_owns n w h0 h sl srefs S l refs R a c) as (h1 & E1 & Ho1 & HS1);
        try done.
      rewrite E1. apply Exists_cons in HE as [HE|HE]; [simpl in HE; lia|].
      by apply (IH HE h1 _ Ho1 HS1).
    + assert (holds_grid h sl srefs S) as HgS'.
      { destruct Ho as [Hsub _]. by eapply holds_grid_weaken. }
      unfold press_st, bind at 1.
      rewrite (read_cell_missing h sl srefs S a c) by (done || lia). done.
Qed.

Lemma all_off_st_holds n w (h : gmap positive object) l refs R L :
  holds_grid h l refs R -> shape n w R ->
  Forall (fun t : nat * nat => t.1 < n /\ t.2 < w) L ->
  all_off_st l L h
  = (Returns (forallb (fun ij : nat * nat => (entry R ij.1 ij.2 =? 0)%Z) L), h).
Proof.
  intros Hg HS HL. induction HL as [|[a c] L [Ha Hc] HL IH]; [done|].
  cbn [all_off_st forallb]. unfold bind.
  simpl in Ha, Hc. pose proof (shape_row n w R a HS Ha) as Hrow.
  rewrite (read_cell_cell h l refs R) by (done || (simpl; lia)).
  simpl. by destruct (entry R a c =? 0)%Z.
Qed.

(** [[row[:] for row in board]] allocates one new object per row, holding
    the integers of that row, and writes to no object that exists. *)
Lemma copy_rows_spec (h0 : gmap positive object) brefs B :
  forall h, h0 ⊆ h ->
  Forall2 (fun r row => h0 !! r = Some (PyList (VInt <$> row))) brefs B ->
  exists refs h', map_st copy_row (VRef <$> brefs) h = (Returns refs, h')
    /\ h ⊆ h'
    /\ Forall (fun r => h !! r = None) refs
    /\ NoDup refs
    /\ Forall2 (fun r row => h' !! r = Some (PyList (VInt <$> row))) refs B.
Proof.
  intros h Hsub HB. revert h Hsub.
  induction HB as [|r row brefs B Hr HB IH]; intros h Hsub.
  - exists [], h. repeat split; (done || constructor).
  - pose proof (lookup_weaken _ _ _ _ Hr Hsub) as Hr'.
    set (l := fresh (dom h)).
    assert (h !! l = None) as Hl by apply fresh_lookup.
    set (h1 := <[l := PyList (VInt <$> row)]> h).
    assert (h ⊆ h1) as Hsub1 by (by apply insert_subseteq).
    destruct (IH h1) as (refs & h' & E & Hsub' & Hfresh & Hnd & Hrows).
    { by etrans. }
    exists (l :: refs), h'.
    assert (Forall (fun r => h !! r = None) refs) as Hfresh'.
    { eapply Forall_impl; [exact Hfresh|]. intros r' Hr1. simpl in Hr1.
      destruct (h !! r') eqn:E'; [|done].
      by rewrite (lookup_weaken _ _ _ _ E' Hsub1) in Hr1. }
    split; [|split; [|split; [|split]]].
    + cbn [fmap list_fmap map_st]. unfold bind at 1.
      unfold copy_row at 1. unfold bind at 1, load at 1. rewrite Hr'.
      unfold alloc. fold l. fold h1. unfold bind at 1. rewrite E. done.
    + by etrans.
    + by constructor.
    + constructor; [|done]. intros Hin.
      rewrite Forall_forall in Hfresh. specialize (Hfresh l Hin).
      unfold h1 in Hfresh. by rewrite lookup_insert_eq in Hfresh.
    + constructor; [|done].
      apply (lookup_weaken h1); [|done]. unfold h1. by rewrite lookup_insert_eq.
Qed.

(** Up to the loop: on a non-empty board, the call has made the copy, owns
    it, and goes on with the two loops. *)
Lemma verify_solution_st_copy (h : gmap positive object) board_ref solution_ref board :
  read_grid h board_ref = Some board -> 0 < length board ->
  exists l refs h2,
    verify_solution_st board_ref solution_ref h
    = (do _ <- for_each (cells (length board) (length (row_of board 0)))
                 (press_st (length board) (length (row_of board 0)) solution_ref l) ;;
       do all_off <- all_off_st l (cells (length board) (length (row_of board 0))) ;;
       ret (all_off, l)) h2
    /\ owns h h2 l refs board
    /\ h !! l = None.
Proof.
  intros Hboard Hpos.
  destruct (read_grid_holds _ _ _ Hboard) as (brefs & Hbl & Hbrows).
  set (rows := length board) in *. set (cols := length (row_of board 0)) in *.
  assert (length brefs = rows) as Hlen by (by eapply Forall2_length).
  destruct brefs as [|row0 brefs']; [simpl in Hlen; lia|].
  set (brefs := row0 :: brefs') in *.
  assert (h !! row0 = Some (PyList (VInt <$> row_of board 0))) as Hrow0.
  { destruct (Forall2_lookup_l _ _ _ 0 row0 Hbrows eq_refl) as (row & Hrow & Hh).
    unfold row_of. by rewrite Hrow. }
  destruct (copy_rows_spec h brefs board h) as (refs & h1 & E1 & Hsub1 & Hfresh & Hnd & Hrows);
    [done|done|].
  set (l := fresh (dom h1)).
  assert (h1 !! l = None) as Hl by apply fresh_lookup.
  set (h2 := <[l := PyList (VRef <$> refs)]> h1).
  assert (h1 ⊆ h2) as Hsub2 by (by apply insert_subseteq).
  assert (h ⊆ h2) as Hsub by (by etrans).
  assert (l ∉ refs) as Hnotin.
  { intros Hin. apply list_elem_of_lookup in Hin as [k Hk].
    destruct (Forall2_lookup_l _ _ _ _ _ Hrows Hk) as (row & _ & Hrow). congruence. }
  exists l, refs, h2. split; [|split].
  - unfold verify_solution_st, bind at 1.
    unfold len_st at 1, bind at 1, load at 1. rewrite Hbl. unfold ret at 1.
    rewrite length_fmap, Hlen. unfold bind at 1, load at 1. rewrite Hbl.
    cbn [fmap list_fmap brefs]. unfold bind at 1.
    unfold len_st at 1, bind at 1, load at 1. rewrite Hrow0. unfold ret at 1.
    rewrite length_fmap. fold cols.
    change (VRef row0 :: (VRef <$> brefs')) with (VRef <$> brefs).
    unfold bind at 1. rewrite E1. unfold bind at 1, alloc at 1. fold l. fold h2.
    done.
  - split; [done|]. split; [|done]. split.
    + unfold h2. by rewrite lookup_insert_eq.
    + eapply Forall2_impl; [exact Hrows|]. intros r row Hr. simpl in *.
      exact (lookup_weaken _ _ _ _ Hr Hsub2).
  - destruct (h !! l) eqn:E; [|done]. by rewrite (lookup_weaken _ _ _ _ E Hsub1) in Hl.
Qed.

Lemma cells_covered n w S :
  covers n w S ->
  Forall (fun t : nat * nat => t.1 < n /\ t.2 < w /\ t.2 < length (row_of S t.1))
         (cells n w).
Proof.
  intros HS. apply Forall_forall. intros [a c] [Ha Hc]%elem_of_cells.
  simpl. split; [done|]. split; [done|]. by apply HS.
Qed.

(** X13.  Called on references to a non-empty rectangular board and to a
    solution grid that has a cell for every cell of the board,
    [verify_solution] writes to no object that exists (the board and the
    solution are as they were), and returns the flag and the grid of the
    replay in a new list whose rows are new objects too, so that the result
    shares nothing with the board. *)
Theorem verify_solution_st_spec (h : gmap positive object)
  board_ref solution_ref board solution :
  read_grid h board_ref = Some board ->
  read_grid h solution_ref = Some solution ->
  0 < length board ->
  shape (length board) (length (row_of board 0)) board ->
  covers (length board) (length (row_of board 0)) solution ->
  exists result_ref refs h',
    verify_solution_st board_ref solution_ref h
    = (Returns ((verify_solution board solution).1, result_ref), h')
    /\ h ⊆ h'
    /\ h !! result_ref = None
    /\ Forall (fun r => h !! r = None) refs
    /\ holds_grid h' result_ref refs (verify_solution board solution).2
    /\ read_grid h' board_ref = Some board
    /\ read_grid h' solution_ref = Some solution.
Proof.
  intros Hboard Hsol Hpos HS HSS.
  destruct (read_grid_holds _ _ _ Hsol) as (srefs & HgS).
  destruct (verify_solution_st_copy h board_ref solution_ref board Hboard Hpos)
    as (l & refs & h2 & -> & Ho & Hl).
  set (rows := length board) in *. set (cols := length (row_of board 0)) in *.
  destruct (for_each_press_owns rows cols h solution_ref srefs solution l refs
              (cells rows cols) HgS (cells_covered _ _ _ HSS) h2 board Ho HS)
    as (h3 & E3 & (Hsub3 & Hg3 & _ & _ & Hfresh) & HS3).
  fold (replay board solution) in Hg3, HS3.
  exists l, refs, h3.
  split; [|split; [done|split; [done|split; [done|split; [done|split]]]]].
  - unfold bind at 1. rewrite E3. unfold bind at 1.
    rewrite (all_off_st_holds rows cols h3 l refs (replay board solution))
      by (done || apply cells_in_range).
    done.
  - by apply (read_grid_weaken h).
  - by apply (read_grid_weaken h).
Qed.

Lemma verify_solution_st_spec_witness :
  exists result_ref refs h',
    verify_solution_st 1%positive 3%positive
      (<[1%positive := PyList [VRef 2%positive]]>
         (<[2%positive := PyList [VInt 1; VInt 0]]>
            (<[3%positive := PyList [VRef 4%positive]]>
               (<[4%positive := PyList [VInt 0; VInt 1]]>
                  (∅ : gmap positive object)))))
    = (Returns ((verify_solution [[1; 0]]%Z [[0; 1]]%Z).1, result_ref), h')
    /\ (<[1%positive := PyList [VRef 2%positive]]>
         (<[2%positive := PyList [VInt 1; VInt 0]]>
            (<[3%positive := PyList [VRef 4%positive]]>
               (<[4%positive := PyList [VInt 0; VInt 1]]>
                  (∅ : gmap positive object))))) ⊆ h'
    /\ (<[1%positive := PyList [VRef 2%positive]]>
         (<[2%positive := PyList [VInt 1; VInt 0]]>
            (<[3%positive := PyList [VRef 4%positive]]>
               (<[4%positive := PyList [VInt 0; VInt 1]]>
                  (∅ : gmap positive object))))) !! result_ref = None
    /\ Forall (fun r =>
         (<[1%positive := PyList [VRef 2%positive]]>
         (<[2%positive := PyList [VInt 1; VInt 0]]>
            (<[3%positive := PyList [VRef 4%positive]]>
               (<[4%positive := PyList [VInt 0; VInt 1]]>
                  (∅ : gmap positive object))))) !! r = None) refs
    /\ holds_grid h' result_ref refs (verify_solution [[1; 0]]%Z [[0; 1]]%Z).2
    /\ read_grid h' 1%positive = Some [[1; 0]]%Z
    /\ read_grid h' 3%positive = Some [[0; 1]]%Z.
Proof.
  apply (verify_solution_st_spec
      (<[1%positive := PyList [VRef 2%positive]]>
         (<[2%positive := PyList [VInt 1; VInt 0]]>
            (<[3%positive := PyList [VRef 4%positive]]>
               (<[4%positive := PyList [VInt 0; VInt 1]]>
                  (∅ : gmap positive object)))))
      1%positive 3%positive [[1; 0]]%Z [[0; 1]]%Z).
  - reflexivity.
  - reflexivity.
  - simpl. lia.
  - split; [reflexivity|]. repeat constructor.
  - apply shape_covers. split; [reflexivity|]. repeat constructor.
Defined.

(** *** Exceptions *)

Lemma keeps_ret {T : Type} (h0 : gmap positive object) l refs (v : T) :
  keeps h0 l refs (ret v).
Proof. intros h R Ho. split; [by exists R|done]. Qed.

Lemma keeps_bind {T U : Type} (h0 : gmap positive object) l refs
  (c : St T) (k : T -> St U) :
  keeps h0 l refs c -> (forall v, keeps h0 l refs (k v)) -> keeps h0 l refs (bind c k).
Proof.
  intros Hc Hk h R Ho. destruct (Hc h R Ho) as [[R' Ho'] He]. unfold bind.
  destruct (c h) as [[e|v] h']; simpl in *.
  - split; [by exists R'|]. intros e' [= <-]. by apply He.
  - by apply (Hk v h' R').
Qed.

Lemma keeps_read_cell (h0 : gmap positive object) l refs sl srefs S i j :
  holds_grid h0 sl srefs S -> keeps h0 l refs (read_cell sl i j).
Proof.
  intros HgS h R Ho.
  assert (holds_grid h sl srefs S) as HgS'.
  { destruct Ho as [Hsub _]. by eapply holds_grid_weaken. }
  destruct (decide (j < length (row_of S i))) as [Hj|Hj].
  - rewrite (read_cell_cell h sl srefs S) by done. split; [by exists R|done].
  - rewrite (read_cell_missing h sl srefs S) by (done || lia).
    split; [by exists R|]. by intros e [= <-].
Qed.

Lemma keeps_read_result (h0 : gmap positive object) l refs i j :
  keeps h0 l refs (read_cell l i j).
Proof.
  intros h R Ho. pose proof Ho as (_ & Hg & _).
  destruct (decide (j < length (row_of R i))) as [Hj|Hj].
  - rewrite (read_cell_cell h l refs R) by done. split; [by exists R|done].
  - rewrite (read_cell_missing h l refs R) by (done || lia).
    split; [by exists R|]. by intros e [= <-].
Qed.

Lemma keeps_toggle_st (h0 : gmap positive object) l refs i j :
  keeps h0 l refs (toggle_st l i j).
Proof.
  intros h R Ho. pose proof Ho as (_ & Hg & _).
  destruct (decide (j < length (row_of R i))) as [Hj|Hj].
  - destruct (toggle_st_cell h0 h l refs R i j Ho Hj) as (h' & -> & Ho').
    split; [by exists (toggle R i j)|done].
  - rewrite (toggle_st_missing h l refs R) by (done || lia).
    split; [by exists R|]. by intros e [= <-].
Qed.

Lemma keeps_toggle_if (h0 : gmap positive object) l refs (b : bool) i j :
  keeps h0 l refs (if b then toggle_st l i j else ret tt).
Proof. destruct b; [apply keeps_toggle_st|apply keeps_ret]. Qed.

Lemma keeps_press_st n w (h0 : gmap positive object) l refs sl srefs S ij :
  holds_grid h0 sl srefs S -> keeps h0 l refs (press_st n w sl l ij).
Proof.
  intros HgS. destruct ij as [i j]. unfold press_st.
  apply keeps_bind; [by eapply keeps_read_cell|]. intros s.
  destruct (s =? 1)%Z; [|apply keeps_ret].
  apply keeps_bind; [apply keeps_toggle_st|]. intros _.
  apply keeps_bind; [apply keeps_toggle_if|]. intros _.
  apply keeps_bind; [apply keeps_toggle_if|]. intros _.
  apply keeps_bind; [apply keeps_toggle_if|]. intros _.
  apply keeps_toggle_if.
Qed.

Lemma keeps_for_each {A : Type} (h0 : gmap positive object) l refs
  (L : list A) (body : A -> St unit) :
  (forall a, keeps h0 l refs (body a)) -> keeps h0 l refs (for_each L body).
Proof.
  intros Hbody. induction L as [|a L IH]; [apply keeps_ret|].
  cbn [for_each]. apply keeps_bind; [apply Hbody|]. by intros _.
Qed.

Lemma keeps_all_off_st (h0 : gmap positive object) l refs L :
  keeps h0 l refs (all_off_st l L).
Proof.
  induction L as [|ij L IH]; [apply keeps_ret|].
  cbn [all_off_st]. apply keeps_bind; [apply keeps_read_result|]. intros v.
  destruct (v =? 0)%Z; [done|apply keeps_ret].
Qed.

(** X14.  Whatever the shapes of the board and of the solution grid, two
    lists of lists of integers, a call of [verify_solution] that does not
    return raises [IndexError] and nothing else, and leaves every object
    that exists as it was, also then.  It raises [IndexError] on the empty
    board, and on a non-empty rectangular board as soon as the solution grid
    lacks a cell of the board. *)
Theorem verify_solution_st_errors (h : gmap positive object)
  board_ref solution_ref board solution :
  read_grid h board_ref = Some board ->
  read_grid h solution_ref = Some solution ->
  h ⊆ (verify_solution_st board_ref solution_ref h).2
  /\ (forall e, (verify_solution_st board_ref solution_ref h).1 = Raises e ->
        e = IndexError)
  /\ (board = [] ->
        verify_solution_st board_ref solution_ref h = (Raises IndexError, h))
  /\ (forall i j,
        shape (length board) (length (row_of board 0)) board ->
        i < length board -> j < length (row_of board 0) ->
        length (row_of solution i) <= j ->
        (verify_solution_st board_ref solution_ref h).1 = Raises IndexError).
Proof.
  intros Hboard Hsol.
  destruct (read_grid_holds _ _ _ Hsol) as (srefs & HgS).
  destruct board as [|b0 board'].
  - destruct (read_grid_holds _ _ _ Hboard) as (brefs & Hbl & Hbrows).
    apply Forall2_nil_inv_r in Hbrows as ->.
    assert (verify_solution_st board_ref solution_ref h = (Raises IndexError, h)) as ->.
    { unfold verify_solution_st, bind at 1.
      unfold len_st at 1, bind at 1, load at 1. rewrite Hbl. unfold ret at 1.
      unfold bind at 1, load at 1. by rewrite Hbl. }
    split; [done|]. split; [by intros e [= <-]|]. split; [done|].
    intros i j _ Hi. simpl in Hi. lia.
  - set (board := b0 :: board') in *.
    destruct (verify_solution_st_copy h board_ref solution_ref board Hboard)
      as (l & refs & h2 & -> & Ho & Hl); [simpl; lia|].
    set (rows := length board) in *. set (cols := length (row_of board 0)) in *.
    set (rest := bind (for_each (cells rows cols) (press_st rows cols solution_ref l)) _).
    assert (keeps h l refs rest) as Hkeeps.
    { apply keeps_bind.
      - apply keeps_for_each. intros ij. by eapply keeps_press_st.
      - intros _. apply keeps_bind; [apply keeps_all_off_st|]. intros v. apply keeps_ret. }
    destruct (Hkeeps h2 board Ho) as [[R' [Hsub _]] He].
    split; [done|]. split; [done|]. split; [done|].
    intros i j HS Hi Hj Hmiss.
    assert (Exists (fun t : nat * nat => length (row_of solution t.1) <= t.2)
                   (cells rows cols)) as HE.
    { apply Exists_exists. exists (i, j). split; [|done]. by apply elem_of_cells. }
    pose proof (for_each_press_missing rows cols h solution_ref srefs solution l refs
                  (cells rows cols) HgS (cells_in_range _ _) HE h2 board Ho HS) as Hloop.
    unfold rest, bind at 1.
    destruct (for_each (cells rows cols) (press_st rows cols solution_ref l) h2)
      as [o h3].
    simpl in Hloop. by rewrite Hloop.
Qed.

Lemma verify_solution_st_errors_witness :
  (<[1%positive := PyList [VRef 2%positive]]>
     (<[2%positive := PyList [VInt 1; VInt 0]]>
        (<[3%positive := PyList [VRef 4%positive]]>
           (<[4%positive := PyList [VInt 1]]>
              (∅ : gmap positive object))))) ⊆ (verify_solution_st 1%positive 3%positive (<[1%positive := PyList [VRef 2%positive]]>
     (<[2%positive := PyList [VInt 1; VInt 0]]>
        (<[3%positive := PyList [VRef 4%positive]]>
           (<[4%positive := PyList [VInt 1]]>
              (∅ : gmap positive object)))))).2
  /\ (forall e, (verify_solution_st 1%positive 3%positive (<[1%positive := PyList [VRef 2%positive]]>
     (<[2%positive := PyList [VInt 1; VInt 0]]>
        (<[3%positive := PyList [VRef 4%positive]]>
           (<[4%positive := PyList [VInt 1]]>
              (∅ : gmap positive object)))))).1 = Raises e ->
        e = IndexError)
  /\ ([[1; 0]]%Z = [] ->
        verify_solution_st 1%positive 3%positive (<[1%positive := PyList [VRef 2%positive]]>
     (<[2%positive := PyList [VInt 1; VInt 0]]>
        (<[3%positive := PyList [VRef 4%positive]]>
           (<[4%positive := PyList [VInt 1]]>
              (∅ : gmap positive object))))) = (Raises IndexError, (<[1%positive := PyList [VRef 2%positive]]>
     (<[2%positive := PyList [VInt 1; VInt 0]]>
        (<[3%positive := PyList [VRef 4%positive]]>
           (<[4%positive := PyList [VInt 1]]>
              (∅ : gmap positive object)))))))
  /\ (forall i j,
        shape (length [[1; 0]]%Z) (length (row_of [[1; 0]]%Z 0)) [[1; 0]]%Z ->
        i < length [[1; 0]]%Z -> j < length (row_of [[1; 0]]%Z 0) ->
        length (row_of [[1]]%Z i) <= j ->
        (verify_solution_st 1%positive 3%positive (<[1%positive := PyList [VRef 2%positive]]>
     (<[2%positive := PyList [VInt 1; VInt 0]]>
        (<[3%positive := PyList [VRef 4%positive]]>
           (<[4%positive := PyList [VInt 1]]>
              (∅ : gmap positive object)))))).1 = Raises IndexError).
Proof.
  apply (verify_solution_st_errors (<[1%positive := PyList [VRef 2%positive]]>
     (<[2%positive := PyList [VInt 1; VInt 0]]>
        (<[3%positive := PyList [VRef 4%positive]]>
           (<[4%positive := PyList [VInt 1]]>
              (∅ : gmap positive object))))) 1%positive 3%positive [[1; 0]]%Z [[1]]%Z).
  - reflexivity.
  - reflexivity.
Defined.
